(** * Sharding API of [torch.distributed._shard.api]

    A shallow embedding of [torch/distributed/_shard/api.py]: the tensor
    sharding operation with its cross-rank agreement check, the parameter
    replacement operation, the two forward hooks, the plan application
    engine and the process-group scoping context.

    Python objects that the code mutates in place (modules) live in a heap
    addressed by object identity; exceptions are values of a sum type; the
    collaborators the file imports (process groups, collectives, sharding
    specifications, sharded tensors) are the fields of a record the whole
    development is parametrised over. *)

From Stdlib Require Import ZArith.
From stdpp Require Import gmap strings list.

Set Warnings "-clear-no-such-hyp".

Local Open Scope Z_scope.
Local Open Scope nat_scope.
Local Open Scope string_scope.

(** ** Data model *)

(** Opaque handle of a set of cooperating processes. *)
Inductive ProcessGroup := Group (handle : nat).

#[global] Instance ProcessGroup_eq_dec : EqDecision ProcessGroup.
Proof. solve_decision. Defined.

(** Modelled from the spec: the [sharding_spec] module is imported, not
    defined, by [api.py].  A sharding specification is a value compared by
    equality; the chunk variant exposes the dimension it splits along. *)
Inductive ShardingSpec :=
| ChunkShardingSpec (dim : Z) (placements : list string)
| OpaqueShardingSpec (payload : list Z).

#[global] Instance ShardingSpec_eq_dec : EqDecision ShardingSpec.
Proof. solve_decision. Defined.

(** What the code observes of a [torch.Tensor]: [size] and
    [is_contiguous()]. *)
Record Tensor := mkTensor { shape : list Z; contiguous : bool }.

#[global] Instance Tensor_eq_dec : EqDecision Tensor.
Proof. solve_decision. Defined.

(** A [torch.nn.Parameter] object: its identity (what [v in memo] and
    [is] compare) and the tensor it is. *)
Record NNParameter := mkParameter { param_id : nat; param_data : Tensor }.

#[global] Instance NNParameter_eq_dec : EqDecision NNParameter.
Proof. solve_decision. Defined.

(** Modelled from the spec: [ShardedTensor] is imported.  A sharded value
    carries the specification it was built with ([_sharding_spec]) and the
    shard owned by the current process ([local_tensor()]). *)
Record ShardedTensor :=
  mkShardedTensor { _sharding_spec : ShardingSpec; local_shard : Tensor }.

#[global] Instance ShardedTensor_eq_dec : EqDecision ShardedTensor.
Proof. solve_decision. Defined.

(** Modelled from the spec: [_PartialTensor] is imported; a partial, not
    yet materialised, sharded value. *)
Record PartialTensor := mkPartialTensor { partial_local : Tensor }.

#[global] Instance PartialTensor_eq_dec : EqDecision PartialTensor.
Proof. solve_decision. Defined.

(** Python values that can sit in a module attribute or flow through a
    forward hook. *)
Inductive value :=
| VNone
| VTensor (t : Tensor)
| VShardedTensor (st : ShardedTensor)
| VPartialTensor (pt : PartialTensor)
| VModule (m : nat)
| VObject (type_name : string).

#[global] Instance value_eq_dec : EqDecision value.
Proof. solve_decision. Defined.

(** The closures registered by [_reshard_output] and
    [_collect_local_shard], defunctionalised: the first captures its
    [resharding_spec]. *)
Inductive hook :=
| ReshardHook (resharding_spec : ShardingSpec)
| CollectLocalShardHook.

#[global] Instance hook_eq_dec : EqDecision hook.
Proof. solve_decision. Defined.

(** One entry of a module's name space.  [nn.Module] keeps parameters
    ([_parameters]), sub-modules ([_modules]) and plain attributes
    ([__dict__]) under disjoint names; a single ordered table with tagged
    entries makes that hold by construction. *)
Inductive member :=
| MParam (p : option NNParameter)
| MModule (c : option nat)
| MPlain (v : value).

#[global] Instance member_eq_dec : EqDecision member.
Proof. solve_decision. Defined.

(** Modelled from the spec: [torch.nn.Module] is imported.  A module owns
    named attributes, in insertion order, and a list of forward hooks in
    registration order. *)
Record NNModule := mkModule {
  module_type : string;
  attrs : list (string * member);
  _forward_hooks : list hook
}.

(** [ShardingPlan]: [plan] maps parameter names to specifications,
    [output_plan] module names to resharding specifications,
    [return_local_tensor] lists module names. *)
Record ShardingPlan := mkShardingPlan {
  plan : gmap string ShardingSpec;
  output_plan : option (gmap string ShardingSpec);
  return_local_tensor : option (list string)
}.

(** ** Exceptions *)

(** The messages of the [raise] statements of [api.py], with the values
    their f-strings interpolate. *)
Inductive message :=
| MsgInputNotContiguous
| MsgSrcRankMismatch (src_rank : Z) (current_rank : nat) (peer_src_rank : Z) (idx : nat)
| MsgShardingSpecMismatch (sharding_spec : ShardingSpec) (current_rank : nat)
    (peer_spec : ShardingSpec) (idx : nat)
| MsgNoParameter (module : nat) (param_name : string)
| MsgNotATensor (module_type : string) (param_name : string) (found_type : string)
| MsgParamNotContiguous (param_name : string)
| MsgProcessGroupAlreadySet
| MsgOther (text : string).

Inductive exn :=
| ValueError (msg : message)
| RuntimeError (msg : message)
| TypeError (name : string)
| AttributeError (name : string)
| KeyError (key : string)
| IndexError (dim : Z)
| DanglingReference (module : nat).

#[global] Instance message_eq_dec : EqDecision message.
Proof. solve_decision. Defined.

#[global] Instance exn_eq_dec : EqDecision exn.
Proof. solve_decision. Defined.

(** Modelled from the spec: the error taxonomy of its section 7, which the
    code realises as [ValueError] and [RuntimeError] with distinct
    messages. *)
Inductive error_kind :=
| InvalidInput
| InconsistentConfiguration
| NotFound
| TypeMismatch
| ReentrancyError
| HostError.

Definition classify (e : exn) : error_kind :=
  match e with
  | ValueError MsgInputNotContiguous => InvalidInput
  | ValueError (MsgParamNotContiguous _) => InvalidInput
  | ValueError (MsgSrcRankMismatch _ _ _ _) => InconsistentConfiguration
  | ValueError (MsgShardingSpecMismatch _ _ _ _) => InconsistentConfiguration
  | ValueError (MsgNoParameter _ _) => NotFound
  | ValueError (MsgNotATensor _ _ _) => TypeMismatch
  | RuntimeError MsgProcessGroupAlreadySet => ReentrancyError
  | _ => HostError
  end.

(** ** The process state and its monad *)

(** Calls made to the collaborators, oldest first. *)
Inductive call :=
| CallAllGather (pg : ProcessGroup) (obj : Z * ShardingSpec)
| CallShard (spec : ShardingSpec) (tensor : Tensor) (src_rank : Z)
    (process_group : option ProcessGroup).

#[global] Instance call_eq_dec : EqDecision call.
Proof. solve_decision. Defined.

Record world := mkWorld {
  modules : gmap nat NNModule;
  _CURRENT_PROCESS_GROUP : option ProcessGroup;
  calls : list call
}.

Definition set_modules (ms : gmap nat NNModule) (w : world) : world :=
  mkWorld ms (_CURRENT_PROCESS_GROUP w) (calls w).

Definition set_current (g : option ProcessGroup) (w : world) : world :=
  mkWorld (modules w) g (calls w).

Definition record_call (c : call) (w : world) : world :=
  mkWorld (modules w) (_CURRENT_PROCESS_GROUP w) (calls w ++ [c]).

(** A computation returns a value or raises; the state it leaves is the
    state at the point where it returned or raised. *)
Definition M (A : Type) : Type := world -> (exn + A) * world.

Definition ret {A} (a : A) : M A := fun w => (inr a, w).

Definition raise {A} (e : exn) : M A := fun w => (inl e, w).

Definition bind {A B} (c : M A) (k : A -> M B) : M B :=
  fun w =>
    match c w with
    | (inl e, w') => (inl e, w')
    | (inr a, w') => k a w'
    end.

Definition lift {A} (r : exn + A) : M A := fun w => (r, w).

Notation "'let*' x ':=' c 'in' k" := (bind c (fun x => k))
  (at level 10, x pattern, c at level 100, k at level 200).
Notation "c1 ';;' c2" := (bind c1 (fun _ => c2))
  (at level 100, c2 at level 200, right associativity).

(** ** Ordered dictionaries *)

Fixpoint alist_lookup {A} (k : string) (l : list (string * A)) : option A :=
  match l with
  | [] => None
  | (k', a) :: l' => if decide (k' = k) then Some a else alist_lookup k l'
  end.

Fixpoint alist_delete {A} (k : string) (l : list (string * A)) : list (string * A) :=
  match l with
  | [] => []
  | (k', a) :: l' =>
      if decide (k' = k) then alist_delete k l' else (k', a) :: alist_delete k l'
  end.

(** [d[k] = a]: an existing key keeps its position, a new one goes last. *)
Fixpoint alist_set {A} (k : string) (a : A) (l : list (string * A)) : list (string * A) :=
  match l with
  | [] => [(k, a)]
  | (k', a') :: l' =>
      if decide (k' = k) then (k, a) :: l' else (k', a') :: alist_set k a l'
  end.

(** ** The module object model *)

Definition attr_lookup (m : NNModule) (name : string) : option member :=
  alist_lookup name (attrs m).

Definition member_value (x : member) : value :=
  match x with
  | MParam None => VNone
  | MParam (Some p) => VTensor (param_data p)
  | MModule None => VNone
  | MModule (Some c) => VModule c
  | MPlain v => v
  end.

(** Modelled from the spec: attribute get, has, delete and set by name
    ([nn.Module.__getattr__], [__delattr__], [__setattr__]). *)
Definition getattr (m : NNModule) (name : string) : exn + value :=
  match attr_lookup m name with
  | Some x => inr (member_value x)
  | None => inl (AttributeError name)
  end.

Definition hasattr (m : NNModule) (name : string) : bool :=
  match getattr m name with
  | inr _ => true
  | inl _ => false
  end.

Definition with_attrs (m : NNModule) (l : list (string * member)) : NNModule :=
  mkModule (module_type m) l (_forward_hooks m).

Definition delattr (m : NNModule) (name : string) : exn + NNModule :=
  match attr_lookup m name with
  | Some _ => inr (with_attrs m (alist_delete name (attrs m)))
  | None => inl (AttributeError name)
  end.

(** A name held by the parameter table or the sub-module table accepts
    only [None] (or a value of its own kind); any other name becomes, or
    stays, a plain attribute. *)
Definition setattr (m : NNModule) (name : string) (v : value) : exn + NNModule :=
  match v with
  | VModule c => inr (with_attrs m (alist_set name (MModule (Some c)) (attrs m)))
  | _ =>
      match attr_lookup m name with
      | Some (MParam _) =>
          match v with
          | VNone => inr (with_attrs m (alist_set name (MParam None) (attrs m)))
          | _ => inl (TypeError name)
          end
      | Some (MModule _) =>
          match v with
          | VNone => inr (with_attrs m (alist_set name (MModule None) (attrs m)))
          | _ => inl (TypeError name)
          end
      | _ => inr (with_attrs m (alist_set name (MPlain v) (attrs m)))
      end
  end.

(** [mod._parameters]: the parameter entries, in order. *)
Definition _parameters (m : NNModule) : list (string * option NNParameter) :=
  omap (fun kv => match kv.2 with MParam p => Some (kv.1, p) | _ => None end) (attrs m).

(** [mod._modules]: the sub-module entries, in order. *)
Definition _modules (m : NNModule) : list (string * option nat) :=
  omap (fun kv => match kv.2 with MModule c => Some (kv.1, c) | _ => None end) (attrs m).

(** [mod._parameters[k]] *)
Definition parameters_getitem (m : NNModule) (k : string) : exn + option NNParameter :=
  match attr_lookup m k with
  | Some (MParam p) => inr p
  | _ => inl (KeyError k)
  end.

Definition register_forward_hook (m : NNModule) (h : hook) : NNModule :=
  mkModule (module_type m) (attrs m) (_forward_hooks m ++ [h]).

(** Operations on a module object in the heap. *)
Definition get_module (module : nat) : M NNModule :=
  fun w =>
    match modules w !! module with
    | Some m => (inr m, w)
    | None => (inl (DanglingReference module), w)
    end.

Definition put_module (module : nat) (m : NNModule) : M unit :=
  fun w => (inr tt, set_modules (<[module := m]> (modules w)) w).

Definition py_hasattr (module : nat) (name : string) : M bool :=
  let* m := get_module module in ret (hasattr m name).

Definition py_getattr (module : nat) (name : string) : M value :=
  let* m := get_module module in lift (getattr m name).

Definition py_delattr (module : nat) (name : string) : M unit :=
  let* m := get_module module in
  let* m' := lift (delattr m name) in
  put_module module m'.

Definition py_setattr (module : nat) (name : string) (v : value) : M unit :=
  let* m := get_module module in
  let* m' := lift (setattr m name v) in
  put_module module m'.

Definition py_register_forward_hook (module : nat) (h : hook) : M unit :=
  let* m := get_module module in
  put_module module (register_forward_hook m h).

(** [isinstance(v, torch.Tensor)] *)
Definition is_tensor (v : value) : bool :=
  match v with
  | VTensor _ => true
  | _ => false
  end.

(** [type(v).__name__] *)
Definition type_name (ms : gmap nat NNModule) (v : value) : string :=
  match v with
  | VNone => "NoneType"
  | VTensor _ => "Tensor"
  | VShardedTensor _ => "ShardedTensor"
  | VPartialTensor _ => "_PartialTensor"
  | VModule c => from_option module_type "Module" (ms !! c)
  | VObject n => n
  end.

(** ** Tensor operations used by the hooks *)

(** Modelled from the spec: [Tensor.size(dim)] and [Tensor.squeeze(dim)]
    belong to the host tensor library.  A dimension index may be negative
    and then counts from the end; out of range it raises. *)
Definition normalize_dim (ndim : nat) (dim : Z) : option nat :=
  if decide (0 <= dim < Z.of_nat ndim)%Z then Some (Z.to_nat dim)
  else if decide (- Z.of_nat ndim <= dim < 0)%Z then Some (Z.to_nat (dim + Z.of_nat ndim))
  else None.

Definition tensor_size (t : Tensor) (dim : Z) : exn + Z :=
  match normalize_dim (length (shape t)) dim with
  | Some i =>
      match shape t !! i with
      | Some n => inr n
      | None => inl (IndexError dim)
      end
  | None => inl (IndexError dim)
  end.

Definition squeeze (t : Tensor) (dim : Z) : exn + Tensor :=
  match normalize_dim (length (shape t)) dim with
  | Some i =>
      match shape t !! i with
      | Some n =>
          if decide (n = 1%Z) then inr (mkTensor (delete i (shape t)) (contiguous t))
          else inr t
      | None => inl (IndexError dim)
      end
  | None => inl (IndexError dim)
  end.

(** [output.local_tensor()] *)
Definition local_tensor (st : ShardedTensor) : Tensor := local_shard st.

(** ** Collaborators *)

(** Modelled from the spec: what [api.py] consumes from
    [torch.distributed] and from the sharding specification and sharded
    tensor classes.  [peer_object n pg i] is the object rank [i] of group
    [pg] contributes to the [n]-th all-gather of this process;
    [spec_shard] is [sharding_spec.shard], [reshard] and [reshard_partial]
    are the [reshard] methods of [ShardedTensor] and [_PartialTensor]. *)
Record Collaborators := mkCollaborators {
  _get_default_group : ProcessGroup;
  get_world_size : ProcessGroup -> nat;
  get_rank : ProcessGroup -> nat;
  peer_object : nat -> ProcessGroup -> nat -> Z * ShardingSpec;
  spec_shard : ShardingSpec -> Tensor -> Z -> option ProcessGroup -> exn + ShardedTensor;
  reshard : ShardedTensor -> ShardingSpec -> exn + ShardedTensor;
  reshard_partial : PartialTensor -> ShardingSpec -> exn + ShardedTensor
}.

(** Number of all-gathers this process has taken part in. *)
Definition is_all_gather (c : call) : bool :=
  match c with
  | CallAllGather _ _ => true
  | CallShard _ _ _ _ => false
  end.

Definition collectives (cs : list call) : nat :=
  length (List.filter is_all_gather cs).

Section Api.

Variable E : Collaborators.

(** [dist.all_gather_object(gathered_list, obj, group=pg)] on a list of
    [world_size] slots: slot [i] receives what rank [i] passed, the
    caller's own slot what it passed itself. *)
Definition all_gather_object (pg : ProcessGroup) (world_size current_rank : nat)
    (obj : Z * ShardingSpec) : M (list (Z * ShardingSpec)) :=
  fun w =>
    let n := collectives (calls w) in
    (inr ((fun i => if decide (i = current_rank) then obj else peer_object E n pg i)
            <$> seq 0 world_size),
     record_call (CallAllGather pg obj) w).

(** [sharding_spec.shard(tensor, src_rank=..., process_group=...)] *)
Definition call_spec_shard (sharding_spec : ShardingSpec) (tensor : Tensor)
    (src_rank : Z) (process_group : option ProcessGroup) : M ShardedTensor :=
  fun w =>
    (spec_shard E sharding_spec tensor src_rank process_group,
     record_call (CallShard sharding_spec tensor src_rank process_group) w).

(** ** [_shard_tensor] *)

(** The [for idx, entry in enumerate(gathered_list)] loop. *)
Fixpoint check_gathered (src_rank : Z) (sharding_spec : ShardingSpec)
    (current_rank idx : nat) (gathered_list : list (Z * ShardingSpec)) : exn + unit :=
  match gathered_list with
  | [] => inr tt
  | entry :: rest =>
      if decide (src_rank <> entry.1) then
        inl (ValueError (MsgSrcRankMismatch src_rank current_rank entry.1 idx))
      else if decide (sharding_spec <> entry.2) then
        inl (ValueError (MsgShardingSpecMismatch sharding_spec current_rank entry.2 idx))
      else check_gathered src_rank sharding_spec current_rank (S idx) rest
  end.

Definition resolve_group (process_group : option ProcessGroup) : ProcessGroup :=
  match process_group with
  | Some g => g
  | None => _get_default_group E
  end.

Definition _shard_tensor (tensor : Tensor) (sharding_spec : ShardingSpec)
    (src_rank : Z) (process_group : option ProcessGroup) : M ShardedTensor :=
  if negb (contiguous tensor) then raise (ValueError MsgInputNotContiguous)
  else
    let pg := resolve_group process_group in
    let world_size := get_world_size E pg in
    let current_rank := get_rank E pg in
    let* gathered_list :=
      all_gather_object pg world_size current_rank (src_rank, sharding_spec) in
    lift (check_gathered src_rank sharding_spec current_rank 0 gathered_list) ;;
    let* st := call_spec_shard sharding_spec tensor src_rank process_group in
    ret st.

(** ** [shard_parameter] *)

Definition shard_parameter (module : nat) (param_name : string)
    (sharding_spec : ShardingSpec) (src_rank : Z)
    (process_group : option ProcessGroup) : M unit :=
  let* has := py_hasattr module param_name in
  if negb has then raise (ValueError (MsgNoParameter module param_name))
  else
    let* tensor := py_getattr module param_name in
    match tensor with
    | VTensor t =>
        if negb (contiguous t) then raise (ValueError (MsgParamNotContiguous param_name))
        else
          let* st := _shard_tensor t sharding_spec src_rank process_group in
          py_delattr module param_name ;;
          py_setattr module param_name (VShardedTensor st)
    | _ =>
        let* m := get_module module in
        fun w =>
          (inl (ValueError (MsgNotATensor (module_type m) param_name
                              (type_name (modules w) tensor))), w)
    end.

(** ** [load_with_process_group] and [_get_current_process_group] *)

(** The context manager applied to the body of its [with] block; the
    body receives the yielded group.  The [finally] clause runs whether
    the body returns or raises. *)
Definition load_with_process_group {A} (process_group : option ProcessGroup)
    (body : option ProcessGroup -> M A) : M A :=
  fun w =>
    match _CURRENT_PROCESS_GROUP w with
    | Some _ => (inl (RuntimeError MsgProcessGroupAlreadySet), w)
    | None =>
        let '(r, w') := body process_group (set_current process_group w) in
        (r, set_current None w')
    end.

Definition _get_current_process_group : M ProcessGroup :=
  fun w =>
    match _CURRENT_PROCESS_GROUP w with
    | None => (inr (_get_default_group E), w)
    | Some g => (inr g, w)
    end.

(** ** Forward hooks *)

(** The [hook_func] closures; a hook that falls off its end returns
    [None]. *)
Definition reshard_hook_func (resharding_spec : ShardingSpec) (output : value) : exn + value :=
  match output with
  | VShardedTensor st =>
      match reshard E st resharding_spec with
      | inr st' => inr (VShardedTensor st')
      | inl e => inl e
      end
  | VPartialTensor pt =>
      match reshard_partial E pt resharding_spec with
      | inr st' => inr (VShardedTensor st')
      | inl e => inl e
      end
  | _ => inr output
  end.

Definition collect_hook_func (output : value) : exn + value :=
  match output with
  | VShardedTensor st =>
      let local := local_tensor st in
      match _sharding_spec st with
      | ChunkShardingSpec dim _ =>
          match tensor_size local dim with
          | inr n =>
              if decide (n = 1%Z) then
                match squeeze local dim with
                | inr t => inr (VTensor t)
                | inl e => inl e
                end
              else inr (VTensor local)
          | inl e => inl e
          end
      | _ => inr (VTensor local)
      end
  | _ => inr VNone
  end.

Definition hook_func (h : hook) (output : value) : exn + value :=
  match h with
  | ReshardHook resharding_spec => reshard_hook_func resharding_spec output
  | CollectLocalShardHook => collect_hook_func output
  end.

(** Modelled from the spec: the host calls the registered hooks after each
    forward computation, in registration order, each on the current
    result; a hook that returns [None] leaves the result as it is. *)
Fixpoint run_forward_hooks (hooks : list hook) (result : value) : exn + value :=
  match hooks with
  | [] => inr result
  | h :: rest =>
      match hook_func h result with
      | inl e => inl e
      | inr VNone => run_forward_hooks rest result
      | inr hook_result => run_forward_hooks rest hook_result
      end
  end.

Definition _reshard_output (module : nat) (resharding_spec : ShardingSpec) : M nat :=
  py_register_forward_hook module (ReshardHook resharding_spec) ;;
  ret module.

Definition _collect_local_shard (module : nat) : M nat :=
  py_register_forward_hook module CollectLocalShardHook ;;
  ret module.

(** ** [shard_module] *)

(** Modelled from the spec: [nn.Module.named_modules()] enumerates the
    sub-modules with their qualified paths, parent before children,
    children in declared order, each module object once (at the first
    path that reaches it). *)
Definition join_prefix (prefix name : string) : string :=
  prefix +:+ (if decide (prefix = "") then "" else ".") +:+ name.

Fixpoint named_modules_children
    (visit : gset nat -> string -> nat -> option (list (string * nat) * gset nat))
    (prefix : string) (children : list (string * option nat)) (memo : gset nat)
    : option (list (string * nat) * gset nat) :=
  match children with
  | [] => Some ([], memo)
  | (_, None) :: rest => named_modules_children visit prefix rest memo
  | (name, Some c) :: rest =>
      match visit memo (join_prefix prefix name) c with
      | None => None
      | Some (l1, memo1) =>
          match named_modules_children visit prefix rest memo1 with
          | None => None
          | Some (l2, memo2) => Some ((l1 ++ l2)%list, memo2)
          end
      end
  end.

(** The recursion follows references through the heap; [fuel] bounds its
    depth (see [named_modules_aux_total]). *)
Fixpoint named_modules_aux (fuel : nat) (ms : gmap nat NNModule) (memo : gset nat)
    (prefix : string) (self : nat) : option (list (string * nat) * gset nat) :=
  if decide (self ∈ memo) then Some ([], memo)
  else
    match fuel with
    | O => None
    | S fuel' =>
        match named_modules_children (named_modules_aux fuel' ms) prefix
                (from_option _modules [] (ms !! self)) ({[self]} ∪ memo) with
        | None => None
        | Some (l, memo') => Some ((prefix, self) :: l, memo')
        end
    end.

Definition named_modules (ms : gmap nat NNModule) (root : nat) : list (string * nat) :=
  match named_modules_aux (S (size ms)) ms ∅ "" root with
  | Some (l, _) => l
  | None => []
  end.

(** The inner loop [for k in param_keys]. *)
Fixpoint shard_module_params (mod_ : nat) (mod_prefix : string) (p : ShardingPlan)
    (src_rank : Z) (process_group : option ProcessGroup)
    (param_keys : list string) (memo : gset nat) : M unit :=
  match param_keys with
  | [] => ret tt
  | k :: rest =>
      let* m := get_module mod_ in
      let* v := lift (parameters_getitem m k) in
      let name := join_prefix mod_prefix k in
      match v with
      | None => shard_module_params mod_ mod_prefix p src_rank process_group rest memo
      | Some param =>
          if decide (param_id param ∈ memo) then
            shard_module_params mod_ mod_prefix p src_rank process_group rest memo
          else
            let memo := {[param_id param]} ∪ memo in
            (match plan p !! name with
             | Some spec => shard_parameter mod_ k spec src_rank process_group
             | None => ret tt
             end) ;;
            shard_module_params mod_ mod_prefix p src_rank process_group rest memo
      end
  end.

(** One iteration of [for mod_prefix, mod in module.named_modules()]. *)
Definition shard_module_visit (p : ShardingPlan) (src_rank : Z)
    (process_group : option ProcessGroup) (mod_prefix : string) (mod_ : nat) : M unit :=
  let memo : gset nat := ∅ in
  let* m := get_module mod_ in
  let param_keys := (_parameters m).*1 in
  shard_module_params mod_ mod_prefix p src_rank process_group param_keys memo ;;
  (match output_plan p with
   | Some op =>
       match op !! mod_prefix with
       | Some spec => _reshard_output mod_ spec ;; ret tt
       | None => ret tt
       end
   | None => ret tt
   end) ;;
  (match return_local_tensor p with
   | Some names =>
       if decide (mod_prefix ∈ names) then _collect_local_shard mod_ ;; ret tt
       else ret tt
   | None => ret tt
   end).

Fixpoint shard_module_loop (p : ShardingPlan) (src_rank : Z)
    (process_group : option ProcessGroup) (l : list (string * nat)) : M unit :=
  match l with
  | [] => ret tt
  | (mod_prefix, mod_) :: rest =>
      shard_module_visit p src_rank process_group mod_prefix mod_ ;;
      shard_module_loop p src_rank process_group rest
  end.

Definition shard_module (module : nat) (p : ShardingPlan) (src_rank : Z)
    (process_group : option ProcessGroup) : M unit :=
  fun w => shard_module_loop p src_rank process_group (named_modules (modules w) module) w.

End Api.

(** ** Derived notions used in the statements *)

(** The module after its attribute [name] was detached and a sharded
    value installed under the same name. *)
Definition replaced (m : NNModule) (name : string) (st : ShardedTensor) : NNModule :=
  with_attrs m (alist_set name (MPlain (VShardedTensor st)) (alist_delete name (attrs m))).

(** Every other member of the group passed the pair [(src_rank, spec)] to
    the all-gather this process is about to take part in. *)
Definition peers_agree (E : Collaborators) (w : world)
    (process_group : option ProcessGroup) (src_rank : Z) (spec : ShardingSpec) : Prop :=
  let pg := resolve_group E process_group in
  forall i, i < get_world_size E pg -> i <> get_rank E pg ->
    peer_object E (collectives (calls w)) pg i = (src_rank, spec).

(** The hooks [shard_module] registers on the module it visits at
    [mod_prefix], in registration order. *)
Definition installed_hooks (p : ShardingPlan) (mod_prefix : string) : list hook :=
  (match output_plan p with
   | Some op =>
       match op !! mod_prefix with
       | Some spec => [ReshardHook spec]
       | None => []
       end
   | None => []
   end ++
   match return_local_tensor p with
   | Some names => if decide (mod_prefix ∈ names) then [CollectLocalShardHook] else []
   | None => []
   end)%list.

(** Identities of the parameter objects a module holds under the given
    keys. *)
Definition held_ids (m : NNModule) (keys : list string) : list nat :=
  omap (fun k => match attr_lookup m k with
                 | Some (MParam (Some q)) => Some (param_id q)
                 | _ => None
                 end) keys.

(** The parameter object was met before: it is in [memo] or held under
    one of the [earlier] keys. *)
Definition seen (m : NNModule) (memo : gset nat) (earlier : list string)
    (param : NNParameter) : Prop :=
  param_id param ∈ memo \/ param_id param ∈ held_ids m earlier.

(** What the pass over a module's parameter table has done with key [k]
    when the module went from [m] to [m']: an absent parameter and a
    parameter object met before are left in place; any other parameter
    is replaced by its sharded value if the plan names it and left in
    place if not. *)
Definition param_outcome (E : Collaborators) (p : ShardingPlan) (src_rank : Z)
    (process_group : option ProcessGroup) (mod_prefix : string) (m m' : NNModule)
    (memo : gset nat) (earlier : list string) (k : string) : Prop :=
  exists v, attr_lookup m k = Some (MParam v) /\
    match v with
    | None => attr_lookup m' k = Some (MParam None)
    | Some param =>
        (seen m memo earlier param -> attr_lookup m' k = Some (MParam (Some param)))
        /\ (~ seen m memo earlier param ->
            match plan p !! join_prefix mod_prefix k with
            | Some spec =>
                exists st, spec_shard E spec (param_data param) src_rank process_group = inr st
                  /\ attr_lookup m' k = Some (MPlain (VShardedTensor st))
            | None => attr_lookup m' k = Some (MParam (Some param))
            end)
    end.

(** What one iteration of the outer loop of [shard_module] has done with
    the module it visited at [mod_prefix]. *)
Definition visited (E : Collaborators) (p : ShardingPlan) (src_rank : Z)
    (process_group : option ProcessGroup) (mod_prefix : string) (m m' : NNModule) : Prop :=
  module_type m' = module_type m
  /\ _forward_hooks m' = (_forward_hooks m ++ installed_hooks p mod_prefix)%list
  /\ (forall k, k ∉ (_parameters m).*1 -> attr_lookup m' k = attr_lookup m k)
  /\ (NoDup (attrs m).*1 ->
      forall i k, (_parameters m).*1 !! i = Some k ->
        param_outcome E p src_rank process_group mod_prefix m m' ∅
          (take i (_parameters m).*1) k).

(** Every module of the heap has pairwise distinct attribute names, as
    the dictionaries behind them have. *)
Definition heap_wf (ms : gmap nat NNModule) : Prop :=
  forall id m, ms !! id = Some m -> NoDup (attrs m).*1.

(** Two heaps hold the same modules with the same sub-module tables. *)
Definition same_children (ms1 ms2 : gmap nat NNModule) : Prop :=
  forall id, _modules <$> ms1 !! id = _modules <$> ms2 !! id.

(** [isinstance(output, ShardedTensor) or isinstance(output, _PartialTensor)] *)
Definition is_sharded_or_partial (v : value) : bool :=
  match v with
  | VShardedTensor _ | VPartialTensor _ => true
  | _ => false
  end.

(** A computation that neither reads nor writes the process-group
    override: run under any override, it does what it does without and
    leaves the override in place. *)
Definition oblivious {A} (c : M A) : Prop :=
  forall g w, c (set_current g w) = ((c w).1, set_current g (c w).2).

(** No parameter the module holds has, under the path [mod_prefix], a
    qualified name that is a key of the plan. *)
Definition unplanned (p : ShardingPlan) (mod_prefix : string) (m : NNModule) : Prop :=
  forall k param,
    attr_lookup m k = Some (MParam (Some param)) ->
    plan p !! join_prefix mod_prefix k = None.

(** The calls of a sequence of successful agreements, each followed by
    the call of the specification's [shard]. *)
Definition shard_calls (E : Collaborators) (src_rank : Z)
    (process_group : option ProcessGroup) (l : list (ShardingSpec * Tensor)) : list call :=
  flat_map (fun st => [CallAllGather (resolve_group E process_group) (src_rank, st.1);
                       CallShard st.1 st.2 src_rank process_group]) l.

(** The calls made between [w] and [w'] are agreements each followed by
    its [shard], all with the given source rank and group and with
    specifications of the plan; an all-gather that is not followed by a
    [shard] comes last, and only in a run that raised ([ok = false]). *)
Definition disciplined (E : Collaborators) (p : ShardingPlan) (src_rank : Z)
    (process_group : option ProcessGroup) (w w' : world) (ok : bool) : Prop :=
  exists l tail,
    calls w' = (calls w ++ shard_calls E src_rank process_group l ++ tail)%list
    /\ Forall (fun st => exists name, plan p !! name = Some st.1) l
    /\ (tail = []
        \/ (ok = false /\ exists spec name, plan p !! name = Some spec
              /\ tail = [CallAllGather (resolve_group E process_group) (src_rank, spec)])).

Definition returned {A} (r : exn + A) : bool :=
  match r with
  | inr _ => true
  | inl _ => false
  end.

(** Between [w] and [w'] only the module [mod_] may have changed, and
    it has kept its type and its forward hooks. *)
Definition touches_only (mod_ : nat) (w w' : world) : Prop :=
  (forall id, id <> mod_ -> modules w' !! id = modules w !! id)
  /\ (forall m, modules w !! mod_ = Some m ->
        exists m', modules w' !! mod_ = Some m'
          /\ module_type m' = module_type m /\ _forward_hooks m' = _forward_hooks m).

(** ** Sample configurations

    A two-process group in which this process has rank 0, a chunk
    specification on dimension 0, and small module trees, used to run
    the definitions on concrete inputs. *)

Definition chunk0 : ShardingSpec :=
  ChunkShardingSpec 0 ["rank:0/cuda:0"; "rank:1/cuda:1"].

Definition chunk1 : ShardingSpec :=
  ChunkShardingSpec 1 ["rank:0/cuda:0"; "rank:1/cuda:1"].

(** A specification class whose [shard] keeps the whole tensor as local
    shard and records the specification; only chunk specifications are
    supported. *)
Definition sample_shard (spec : ShardingSpec) (t : Tensor) (src_rank : Z)
    (process_group : option ProcessGroup) : exn + ShardedTensor :=
  match spec with
  | ChunkShardingSpec _ _ => inr (mkShardedTensor spec t)
  | OpaqueShardingSpec _ => inl (ValueError (MsgOther "unsupported sharding spec"))
  end.

Definition sample_env (peer : Z * ShardingSpec) : Collaborators :=
  mkCollaborators (Group 0) (fun _ => 2) (fun _ => 0) (fun _ _ _ => peer)
    sample_shard
    (fun st spec => inr (mkShardedTensor spec (local_shard st)))
    (fun pt spec => inr (mkShardedTensor spec (partial_local pt))).

(** The peer passes [(0, chunk0)], as this process does in the runs
    below. *)
Definition env_agree : Collaborators := sample_env (0%Z, chunk0).

(** The peer passes source rank 1. *)
Definition env_other_rank : Collaborators := sample_env (1%Z, chunk0).

(** The peer passes another specification. *)
Definition env_other_spec : Collaborators := sample_env (0%Z, chunk1).

Definition dense_4_8 : Tensor := mkTensor [4%Z; 8%Z] true.

Definition strided_4_8 : Tensor := mkTensor [4%Z; 8%Z] false.

Definition empty_world : world := mkWorld ∅ None [].

(** A module with a dense parameter ["w"], a non-contiguous parameter
    ["strided"], an absent parameter ["bias"] and a plain attribute
    ["count"] that is not a tensor. *)
Definition net : NNModule :=
  mkModule "Net"
    [("w", MParam (Some (mkParameter 7 dense_4_8)));
     ("strided", MParam (Some (mkParameter 8 strided_4_8)));
     ("bias", MParam None);
     ("count", MPlain (VObject "int"))]
    [].

Definition net_world : world := mkWorld {[ 0 := net ]} None [].

Definition shared_param : NNParameter := mkParameter 7 dense_4_8.

(** One module holding the same parameter object under two keys. *)
Definition alias_net : NNModule :=
  mkModule "Net"
    [("w1", MParam (Some shared_param)); ("w2", MParam (Some shared_param))] [].

Definition alias_world : world := mkWorld {[ 0 := alias_net ]} None [].

(** Two sub-modules holding the same parameter object (tied weights). *)
Definition tied_layer : NNModule :=
  mkModule "Linear" [("weight", MParam (Some shared_param))] [].

Definition tied_root : NNModule :=
  mkModule "Net" [("encoder", MModule (Some 1)); ("decoder", MModule (Some 2))] [].

Definition tied_world : world :=
  mkWorld {[ 0 := tied_root; 1 := tied_layer; 2 := tied_layer ]} None [].

(** A two-layer module. *)
Definition linear_weight : NNParameter := mkParameter 1 dense_4_8.

Definition linear_bias : NNParameter := mkParameter 2 (mkTensor [4%Z] true).

Definition out_weight : NNParameter := mkParameter 3 dense_4_8.

Definition linear_layer : NNModule :=
  mkModule "Linear"
    [("weight", MParam (Some linear_weight)); ("bias", MParam (Some linear_bias))] [].

Definition out_layer : NNModule :=
  mkModule "Linear" [("weight", MParam (Some out_weight)); ("bias", MParam None)] [].

Definition two_layer_root : NNModule :=
  mkModule "Net" [("linear", MModule (Some 1)); ("out", MModule (Some 2))] [].

Definition two_layer_world : world :=
  mkWorld {[ 0 := two_layer_root; 1 := linear_layer; 2 := out_layer ]} None [].

(** One sub-module object registered under two names. *)
Definition shared_root : NNModule :=
  mkModule "Net" [("a", MModule (Some 1)); ("b", MModule (Some 1))] [].

Definition shared_world : world :=
  mkWorld {[ 0 := shared_root; 1 := tied_layer ]} None [].

Definition plan_of (names : list string) : ShardingPlan :=
  mkShardingPlan (list_to_map ((fun name => (name, chunk0)) <$> names)) None None.

(** A plan that shards ["linear.weight"], reshards the output of
    ["linear"] and collapses it to the local shard. *)
Definition plan_with_hooks : ShardingPlan :=
  mkShardingPlan {[ "linear.weight" := chunk0 ]} (Some {[ "linear" := chunk1 ]})
    (Some ["linear"]).

(** Two attribute names of two modules hold one and the same sharded
    value. *)
Definition share_sharded_value (w : world) (mod1 : nat) (k1 : string)
    (mod2 : nat) (k2 : string) : Prop :=
  exists m1 m2 st,
    modules w !! mod1 = Some m1 /\ modules w !! mod2 = Some m2
    /\ getattr m1 k1 = inr (VShardedTensor st)
    /\ getattr m2 k2 = inr (VShardedTensor st).

(** A three-process group in which this process has rank 0: rank 1
    passes another specification, rank 2 another source rank. *)
Definition env_three : Collaborators :=
  mkCollaborators (Group 0) (fun _ => 3) (fun _ => 0)
    (fun _ _ i => if decide (i = 1) then (0%Z, chunk1) else (1%Z, chunk0))
    sample_shard
    (fun st spec => inr (mkShardedTensor spec (local_shard st)))
    (fun pt spec => inr (mkShardedTensor spec (partial_local pt))).

(** A plan whose second entry cannot be agreed on in [env_agree]. *)
Definition plan_failing_second : ShardingPlan :=
  mkShardingPlan {[ "linear.weight" := chunk0; "out.weight" := OpaqueShardingSpec [] ]}
    None (Some [""; "linear"; "out"]).

(** A group of one process. *)
Definition env_single : Collaborators :=
  mkCollaborators (Group 0) (fun _ => 1) (fun _ => 0) (fun _ _ _ => (7%Z, chunk1))
    sample_shard
    (fun st spec => inr (mkShardedTensor spec (local_shard st)))
    (fun pt spec => inr (mkShardedTensor spec (partial_local pt))).

(** * Properties *)

(** ** Ordered dictionaries *)

Section Alist.

Context {A : Type}.
Implicit Types (l : list (string * A)) (k : string) (a : A).

Lemma alist_lookup_delete_eq l k : alist_lookup k (alist_delete k l) = None.
Proof.
  induction l as [|[k' a'] l IH]; simpl; [done|].
  destruct (decide (k' = k)); simpl; [done|].
  by rewrite decide_False.
Qed.

Lemma alist_lookup_delete_ne l k k' :
  k <> k' -> alist_lookup k' (alist_delete k l) = alist_lookup k' l.
Proof.
  intros Hne. induction l as [|[k0 a0] l IH]; simpl; [done|].
  destruct (decide (k0 = k)) as [->|Hk].
  - by rewrite decide_False.
  - simpl. by rewrite IH.
Qed.

Lemma alist_lookup_set_eq l k a : alist_lookup k (alist_set k a l) = Some a.
Proof.
  induction l as [|[k' a'] l IH]; simpl.
  - by rewrite decide_True.
  - destruct (decide (k' = k)); simpl.
    + by rewrite decide_True.
    + by rewrite decide_False.
Qed.

Lemma alist_lookup_set_ne l k k' a :
  k <> k' -> alist_lookup k' (alist_set k a l) = alist_lookup k' l.
Proof.
  intros Hne. induction l as [|[k0 a0] l IH]; simpl.
  - by rewrite decide_False.
  - destruct (decide (k0 = k)) as [->|Hk]; simpl.
    + by rewrite !decide_False.
    + by rewrite IH.
Qed.

Lemma alist_delete_keys l k : k ∉ (alist_delete k l).*1.
Proof.
  induction l as [|[k' a'] l IH]; simpl; [apply not_elem_of_nil|].
  destruct (decide (k' = k)); simpl; [done|].
  rewrite not_elem_of_cons. auto.
Qed.

Lemma alist_set_absent l k a :
  k ∉ l.*1 -> alist_set k a l = (l ++ [(k, a)])%list.
Proof.
  induction l as [|[k' a'] l IH]; simpl; [done|].
  rewrite not_elem_of_cons. intros [Hne Hl].
  rewrite decide_False by done. by rewrite IH.
Qed.

Lemma alist_lookup_None l k : alist_lookup k l = None <-> k ∉ l.*1.
Proof.
  induction l as [|[k' a'] l IH]; simpl.
  - split; [intros _; apply not_elem_of_nil|done].
  - rewrite not_elem_of_cons. destruct (decide (k' = k)) as [->|Hne].
    + split; [done|]. intros [? _]. done.
    + rewrite IH. split; [by intros ?|by intros [_ ?]].
Qed.

Lemma alist_lookup_elem_of l k a : alist_lookup k l = Some a -> (k, a) ∈ l.
Proof.
  induction l as [|[k' a'] l IH]; simpl; [done|].
  destruct (decide (k' = k)) as [->|Hne].
  - intros [= ->]. apply elem_of_cons. by left.
  - intros H. apply elem_of_cons. right. auto.
Qed.

Lemma alist_lookup_NoDup l k a :
  NoDup l.*1 -> (k, a) ∈ l -> alist_lookup k l = Some a.
Proof.
  induction l as [|[k' a'] l IH]; simpl.
  - intros _ H. by apply elem_of_nil in H.
  - rewrite NoDup_cons. intros [Hk Hl] Hin.
    apply elem_of_cons in Hin as [[= -> ->]|Hin].
    + by rewrite decide_True.
    + destruct (decide (k' = k)) as [->|Hne]; [|by auto].
      exfalso. apply Hk. apply list_elem_of_fmap. by exists (k, a).
Qed.

End Alist.

(** ** The tensor sharding operation *)

Section ShardTensor.

Variable E : Collaborators.

Lemma check_gathered_inr src_rank spec current_rank idx l :
  check_gathered src_rank spec current_rank idx l = inr tt <->
  Forall (fun entry => entry = (src_rank, spec)) l.
Proof.
  revert idx. induction l as [|[r' s'] l IH]; intros idx; simpl.
  - split; auto.
  - rewrite Forall_cons. destruct (decide (src_rank <> r')) as [Hr|Hr].
    + split; [done|]. intros [[= -> ->] _]. done.
    + apply dec_stable in Hr as <-. destruct (decide (spec <> s')) as [Hs|Hs].
      * split; [done|]. intros [[= ->] _]. done.
      * apply dec_stable in Hs as <-. rewrite IH.
        split; [by intros ?|by intros [_ ?]].
Qed.

Lemma check_gathered_inl src_rank spec current_rank idx l e :
  check_gathered src_rank spec current_rank idx l = inl e ->
  exists i r' s',
    l !! i = Some (r', s') /\ (r', s') <> (src_rank, spec) /\
    e = ValueError
          (if decide (src_rank <> r')
           then MsgSrcRankMismatch src_rank current_rank r' (idx + i)
           else MsgShardingSpecMismatch spec current_rank s' (idx + i)).
Proof.
  revert idx. induction l as [|[r' s'] l IH]; intros idx; simpl; [done|].
  destruct (decide (src_rank <> r')) as [Hr|Hr].
  - intros [= <-]. exists 0, r', s'. rewrite Nat.add_0_r, decide_True by done.
    split_and!; [done| |done]. intros [= -> ->]. done.
  - destruct (decide (spec <> s')) as [Hs|Hs].
    + intros [= <-]. exists 0, r', s'. rewrite Nat.add_0_r, decide_False by done.
      split_and!; [done| |done]. intros [= -> ->]. done.
    + intros H. apply IH in H as (i & r1 & s1 & Hi & Hne & ->).
      exists (S i), r1, s1. rewrite <- Nat.add_succ_comm. done.
Qed.

Lemma gathered_agree w process_group src_rank spec :
  let pg := resolve_group E process_group in
  Forall (fun entry => entry = (src_rank, spec))
    ((fun i => if decide (i = get_rank E pg) then (src_rank, spec)
               else peer_object E (collectives (calls w)) pg i)
       <$> seq 0 (get_world_size E pg)) <->
  peers_agree E w process_group src_rank spec.
Proof.
  intros pg. unfold peers_agree. fold pg. rewrite Forall_fmap, Forall_seq. simpl.
  split.
  - intros H i Hi Hne. specialize (H i). rewrite decide_False in H by done.
    apply H. lia.
  - intros H i [_ Hi]. destruct (decide (i = get_rank E pg)); [done|]. by apply H.
Qed.

Lemma shard_tensor_frame t spec src_rank process_group w res w' :
  _shard_tensor E t spec src_rank process_group w = (res, w') ->
  modules w' = modules w /\ _CURRENT_PROCESS_GROUP w' = _CURRENT_PROCESS_GROUP w.
Proof.
  unfold _shard_tensor. destruct (contiguous t); simpl.
  - unfold bind, all_gather_object, lift, call_spec_shard, ret. simpl.
    destruct (check_gathered _ _ _ _ _); simpl.
    + intros [= <- <-]. done.
    + destruct (spec_shard E _ _ _ _); intros [= <- <-]; done.
  - intros [= <- <-]. done.
Qed.

End ShardTensor.

(** C2. On a contiguous tensor, [_shard_tensor] passes its agreement check
    exactly when every other process of the group passed the same
    [(src_rank, sharding_spec)] pair, and then calls the specification's
    [shard] (after the all-gather) and returns what it returns; otherwise
    it raises, without calling [shard], a [ValueError] that names the own
    rank and value and the rank and value of the first peer that differs,
    the source rank being compared before the specification.  So, for a
    specification whose own [shard] succeeds, the operation succeeds iff
    all processes passed identical pairs. *)
Theorem shard_tensor_succeeds_iff_agreement
    (E : Collaborators) (tensor : Tensor) (spec : ShardingSpec) (src_rank : Z)
    (process_group : option ProcessGroup) (w : world) :
  contiguous tensor = true ->
  let pg := resolve_group E process_group in
  let gathered := record_call (CallAllGather pg (src_rank, spec)) w in
  (peers_agree E w process_group src_rank spec ->
     _shard_tensor E tensor spec src_rank process_group w =
       (spec_shard E spec tensor src_rank process_group,
        record_call (CallShard spec tensor src_rank process_group) gathered))
  /\ (~ peers_agree E w process_group src_rank spec ->
      exists idx r' s' e,
        idx < get_world_size E pg /\ idx <> get_rank E pg /\
        peer_object E (collectives (calls w)) pg idx = (r', s') /\
        (r', s') <> (src_rank, spec) /\
        _shard_tensor E tensor spec src_rank process_group w = (inl e, gathered) /\
        classify e = InconsistentConfiguration /\
        e = ValueError
              (if decide (src_rank <> r')
               then MsgSrcRankMismatch src_rank (get_rank E pg) r' idx
               else MsgShardingSpecMismatch spec (get_rank E pg) s' idx))
  /\ (forall st, spec_shard E spec tensor src_rank process_group = inr st ->
      ((exists st' w', _shard_tensor E tensor spec src_rank process_group w = (inr st', w'))
       <-> peers_agree E w process_group src_rank spec)).
Proof.
  intros Hc pg gathered.
  assert (Hrun : _shard_tensor E tensor spec src_rank process_group w =
    match check_gathered src_rank spec (get_rank E pg) 0
            ((fun i => if decide (i = get_rank E pg) then (src_rank, spec)
                       else peer_object E (collectives (calls w)) pg i)
               <$> seq 0 (get_world_size E pg)) with
    | inl e => (inl e, gathered)
    | inr _ => (spec_shard E spec tensor src_rank process_group,
                record_call (CallShard spec tensor src_rank process_group) gathered)
    end).
  { unfold _shard_tensor. rewrite Hc. simpl.
    unfold bind, all_gather_object, lift, call_spec_shard, ret. simpl. fold pg.
    destruct (check_gathered _ _ _ _ _); [done|].
    by destruct (spec_shard E _ _ _ _). }
  pose proof (gathered_agree E w process_group src_rank spec) as Hag.
  simpl in Hag. fold pg in Hag.
  destruct (check_gathered _ _ _ _ _) as [e|[]] eqn:Hchk.
  - assert (Hno : ~ peers_agree E w process_group src_rank spec).
    { rewrite <- Hag, <- check_gathered_inr, Hchk. done. }
    split_and!.
    + intros Hyes. done.
    + intros _. apply check_gathered_inl in Hchk as (i & r' & s' & Hi & Hne & ->).
      rewrite list_lookup_fmap in Hi.
      destruct (seq 0 (get_world_size E pg) !! i) as [j|] eqn:Hj; [|done].
      apply lookup_seq in Hj as [-> Hlt]. simpl in Hi.
      destruct (decide (i = get_rank E pg)) as [Heq|Hrank].
      { injection Hi as <- <-. done. }
      exists i, r', s'. eexists. split_and!; try done.
      * by injection Hi.
      * by destruct (decide (src_rank <> r')).
    + intros st _. split; [|done]. intros (st' & w' & H). rewrite Hrun in H. done.
  - assert (Hyes : peers_agree E w process_group src_rank spec).
    { rewrite <- Hag, <- check_gathered_inr, Hchk. done. }
    split_and!.
    + done.
    + intros Hno. done.
    + intros st Hst. split; [done|]. intros _. rewrite Hrun, Hst. eauto.
Qed.

Lemma shard_tensor_succeeds_iff_agreement_witness :
  contiguous dense_4_8 = true /\
  peers_agree env_agree empty_world None 0 chunk0 /\
  _shard_tensor env_agree dense_4_8 chunk0 0 None empty_world =
    (inr (mkShardedTensor chunk0 dense_4_8),
     mkWorld ∅ None [CallAllGather (Group 0) (0%Z, chunk0);
                     CallShard chunk0 dense_4_8 0 None]) /\
  ~ peers_agree env_other_rank empty_world None 0 chunk0 /\
  (exists e w', _shard_tensor env_other_rank dense_4_8 chunk0 0 None empty_world = (inl e, w')
                /\ classify e = InconsistentConfiguration).
Proof.
  assert (Hyes : peers_agree env_agree empty_world None 0 chunk0).
  { intros i _ _. reflexivity. }
  assert (Hno : ~ peers_agree env_other_rank empty_world None 0 chunk0).
  { intros H. specialize (H 1). simpl in H. discriminate H; lia. }
  split; [reflexivity|]. split; [exact Hyes|]. split.
  - destruct (shard_tensor_succeeds_iff_agreement env_agree dense_4_8 chunk0 0 None
                empty_world eq_refl) as (H & _ & _).
    rewrite (H Hyes). reflexivity.
  - split; [exact Hno|].
    destruct (shard_tensor_succeeds_iff_agreement env_other_rank dense_4_8 chunk0 0 None
                empty_world eq_refl) as (_ & H & _).
    destruct (H Hno) as (idx & r' & s' & e & _ & _ & _ & _ & Hrun & Hk & _).
    exists e. eexists. split; [exact Hrun|exact Hk].
Defined.

(** ** The parameter replacement operation *)

Section ShardParameter.

Variable E : Collaborators.

(** [shard_parameter], case by case. *)
Lemma shard_parameter_unfold module name spec src_rank process_group w :
  shard_parameter E module name spec src_rank process_group w =
  match modules w !! module with
  | None => (inl (DanglingReference module), w)
  | Some m =>
      match getattr m name with
      | inl _ => (inl (ValueError (MsgNoParameter module name)), w)
      | inr (VTensor t) =>
          if contiguous t then
            match _shard_tensor E t spec src_rank process_group w with
            | (inl e, w1) => (inl e, w1)
            | (inr st, w1) =>
                (inr tt, set_modules (<[module := replaced m name st]> (modules w1)) w1)
            end
          else (inl (ValueError (MsgParamNotContiguous name)), w)
      | inr v =>
          (inl (ValueError (MsgNotATensor (module_type m) name (type_name (modules w) v))), w)
      end
  end.
Proof.
  unfold shard_parameter, py_hasattr, py_getattr, bind at 1 2, get_module, hasattr.
  destruct (modules w !! module) as [m|] eqn:Hm; simpl; [|done].
  unfold ret, lift, raise, bind at 1. simpl.
  destruct (getattr m name) as [e|v] eqn:Hget; simpl; [done|].
  unfold bind at 1. rewrite Hm, Hget.
  destruct v as [|t|st|pt|c|n]; simpl;
    try (unfold bind, get_module; rewrite Hm; done).
  destruct (contiguous t); simpl; [|done].
  unfold bind at 1.
  destruct (_shard_tensor E t spec src_rank process_group w) as [[e|st] w1] eqn:Hst; [done|].
  apply shard_tensor_frame in Hst as [Hms Hcur].
  unfold getattr in Hget. destruct (attr_lookup m name) as [x|] eqn:Hx; [|done].
  unfold py_delattr, py_setattr, bind, get_module, lift, put_module, delattr. simpl.
  rewrite Hms, Hm, Hx. simpl. rewrite lookup_insert_eq. simpl.
  unfold setattr, attr_lookup. simpl. rewrite alist_lookup_delete_eq. simpl.
  rewrite insert_insert_eq. unfold replaced, set_modules, with_attrs. simpl.
  by rewrite Hms.
Qed.

End ShardParameter.

Lemma parameters_keys_attrs m k : k ∈ (_parameters m).*1 -> k ∈ (attrs m).*1.
Proof.
  unfold _parameters. generalize (attrs m) as l.
  induction l as [|[k' x] l IH]; simpl; [done|].
  destruct x as [p| |]; simpl; rewrite ?elem_of_cons; intuition.
Qed.

Lemma replaced_lookup_eq m name st :
  attr_lookup (replaced m name st) name = Some (MPlain (VShardedTensor st)).
Proof. unfold attr_lookup, replaced. simpl. apply alist_lookup_set_eq. Qed.

Lemma replaced_lookup_ne m name st k :
  name <> k -> attr_lookup (replaced m name st) k = attr_lookup m k.
Proof.
  intros Hne. unfold attr_lookup, replaced. simpl.
  by rewrite alist_lookup_set_ne, alist_lookup_delete_ne.
Qed.

Lemma replaced_not_parameter m name st : name ∉ (_parameters (replaced m name st)).*1.
Proof.
  unfold _parameters, replaced. simpl.
  rewrite alist_set_absent by apply alist_delete_keys.
  rewrite omap_app. simpl. rewrite app_nil_r.
  intros H. apply (alist_delete_keys (attrs m) name).
  apply (parameters_keys_attrs (with_attrs m (alist_delete name (attrs m)))). exact H.
Qed.

(** What a run of [shard_parameter] that returns has done. *)
Lemma shard_parameter_inr E module name spec src_rank process_group w w' :
  shard_parameter E module name spec src_rank process_group w = (inr tt, w') ->
  exists m t st w1,
    modules w !! module = Some m /\ getattr m name = inr (VTensor t) /\
    contiguous t = true /\
    _shard_tensor E t spec src_rank process_group w = (inr st, w1) /\
    spec_shard E spec t src_rank process_group = inr st /\
    w' = set_modules (<[module := replaced m name st]> (modules w)) w1.
Proof.
  rewrite shard_parameter_unfold.
  destruct (modules w !! module) as [m|] eqn:Hm; [|done].
  destruct (getattr m name) as [e|v] eqn:Hget; [done|].
  destruct v as [|t|st|pt|c|n]; try done.
  destruct (contiguous t) eqn:Hc; [|done].
  destruct (_shard_tensor E t spec src_rank process_group w) as [[e|st] w1] eqn:Hst; [done|].
  intros [= <-]. exists m, t, st, w1.
  pose proof Hst as Hfr. apply shard_tensor_frame in Hfr as [-> _].
  split_and!; try done.
  revert Hst. unfold _shard_tensor. rewrite Hc. simpl.
  unfold bind, all_gather_object, lift, call_spec_shard, ret. simpl.
  destruct (check_gathered _ _ _ _ _); [done|].
  destruct (spec_shard E _ _ _ _); [done|]. by intros [= ->].
Qed.

(** C3. [shard_parameter] on a module that has no attribute of the given
    name raises the not-found [ValueError]; on an attribute whose value is
    not a tensor it raises the type-mismatch [ValueError], which carries
    the name of the type found; on a tensor that is not contiguous it
    raises the invalid-input [ValueError].  The checks come in this order
    and before any effect: in each case the state is left exactly as it
    was, with no collective called. *)
Theorem shard_parameter_preconditions
    (E : Collaborators) (module : nat) (spec : ShardingSpec) (src_rank : Z)
    (process_group : option ProcessGroup) (w : world) (m : NNModule) :
  modules w !! module = Some m ->
  (forall name, hasattr m name = false ->
     exists e, shard_parameter E module name spec src_rank process_group w = (inl e, w)
       /\ e = ValueError (MsgNoParameter module name) /\ classify e = NotFound)
  /\ (forall name v, getattr m name = inr v -> is_tensor v = false ->
     exists e, shard_parameter E module name spec src_rank process_group w = (inl e, w)
       /\ e = ValueError (MsgNotATensor (module_type m) name (type_name (modules w) v))
       /\ classify e = TypeMismatch)
  /\ (forall name t, getattr m name = inr (VTensor t) -> contiguous t = false ->
     exists e, shard_parameter E module name spec src_rank process_group w = (inl e, w)
       /\ e = ValueError (MsgParamNotContiguous name) /\ classify e = InvalidInput).
Proof.
  intros Hm. split_and!.
  - intros name Hhas. eexists. rewrite shard_parameter_unfold, Hm.
    unfold hasattr in Hhas. destruct (getattr m name); [|done]. done.
  - intros name v Hget Hv. eexists. rewrite shard_parameter_unfold, Hm, Hget.
    destruct v; try done.
  - intros name t Hget Hc. eexists. rewrite shard_parameter_unfold, Hm, Hget, Hc. done.
Qed.

Lemma shard_parameter_preconditions_witness :
  shard_parameter env_agree 0 "missing" chunk0 0 None net_world =
    (inl (ValueError (MsgNoParameter 0 "missing")), net_world)
  /\ shard_parameter env_agree 0 "count" chunk0 0 None net_world =
    (inl (ValueError (MsgNotATensor "Net" "count" "int")), net_world)
  /\ shard_parameter env_agree 0 "strided" chunk0 0 None net_world =
    (inl (ValueError (MsgParamNotContiguous "strided")), net_world).
Proof.
  destruct (shard_parameter_preconditions env_agree 0 chunk0 0 None net_world net eq_refl)
    as (H1 & H2 & H3).
  split_and!.
  - destruct (H1 "missing" eq_refl) as (e & -> & -> & _). reflexivity.
  - destruct (H2 "count" (VObject "int") eq_refl eq_refl) as (e & -> & -> & _). reflexivity.
  - destruct (H3 "strided" strided_4_8 eq_refl eq_refl) as (e & -> & -> & _). reflexivity.
Defined.

(** C9. A run of [shard_parameter] that raises, at a precondition, in the
    agreement check or in the specification's [shard], leaves every module
    as it was: the attribute is detached and replaced only once the
    sharded value has been obtained. *)
Theorem shard_parameter_failure_leaves_module
    (E : Collaborators) (module : nat) (name : string) (spec : ShardingSpec)
    (src_rank : Z) (process_group : option ProcessGroup) (w w' : world) (e : exn) :
  shard_parameter E module name spec src_rank process_group w = (inl e, w') ->
  modules w' = modules w.
Proof.
  rewrite shard_parameter_unfold.
  destruct (modules w !! module) as [m|]; [|by intros [= _ <-]].
  destruct (getattr m name) as [e'|v]; [by intros [= _ <-]|].
  destruct v as [|t|st|pt|c|n]; try by intros [= _ <-].
  destruct (contiguous t); [|by intros [= _ <-]].
  destruct (_shard_tensor E t spec src_rank process_group w) as [[e'|st] w1] eqn:Hst; [|done].
  intros [= _ <-]. by apply shard_tensor_frame in Hst as [-> _].
Qed.

Lemma shard_parameter_failure_leaves_module_witness :
  (exists e w', shard_parameter env_other_rank 0 "w" chunk0 0 None net_world = (inl e, w')
     /\ classify e = InconsistentConfiguration /\ modules w' = modules net_world)
  /\ (exists e w', shard_parameter (sample_env (0%Z, OpaqueShardingSpec [])) 0 "w"
                     (OpaqueShardingSpec []) 0 None net_world = (inl e, w')
     /\ e = ValueError (MsgOther "unsupported sharding spec")
     /\ modules w' = modules net_world).
Proof.
  split.
  - eexists _, _. split; [reflexivity|]. split; [reflexivity|].
    eapply (shard_parameter_failure_leaves_module env_other_rank 0 "w" chunk0 0 None).
    reflexivity.
  - eexists _, _. split; [reflexivity|]. split; [reflexivity|].
    eapply (shard_parameter_failure_leaves_module (sample_env (0%Z, OpaqueShardingSpec []))
              0 "w" (OpaqueShardingSpec []) 0 None).
    reflexivity.
Defined.

(** C4. After [shard_parameter] has returned, the module holds under the
    name, instead of the dense tensor it held, the sharded value the
    specification's [shard] built from that tensor; the value was
    installed by deleting the attribute and then setting it; and, the
    specification's [shard] recording the specification it was called on,
    the specification recovered from the installed value is the one
    given. *)
Theorem shard_parameter_installs_sharded_value
    (E : Collaborators) (module : nat) (name : string) (spec : ShardingSpec)
    (src_rank : Z) (process_group : option ProcessGroup) (w w' : world) :
  (forall s t r g st, spec_shard E s t r g = inr st -> _sharding_spec st = s) ->
  shard_parameter E module name spec src_rank process_group w = (inr tt, w') ->
  exists m t st m1 m',
    modules w !! module = Some m /\ getattr m name = inr (VTensor t) /\
    spec_shard E spec t src_rank process_group = inr st /\
    delattr m name = inr m1 /\ setattr m1 name (VShardedTensor st) = inr m' /\
    modules w' !! module = Some m' /\
    getattr m' name = inr (VShardedTensor st) /\
    is_tensor (VShardedTensor st) = false /\
    _sharding_spec st = spec.
Proof.
  intros Hspec Hrun.
  apply shard_parameter_inr in Hrun as (m & t & st & w1 & Hm & Hget & Hc & Hst & Hsh & ->).
  exists m, t, st, (with_attrs m (alist_delete name (attrs m))), (replaced m name st).
  split_and!; try done.
  - unfold delattr. unfold getattr in Hget. by destruct (attr_lookup m name).
  - unfold setattr, attr_lookup. simpl. by rewrite alist_lookup_delete_eq.
  - simpl. by rewrite lookup_insert_eq.
  - unfold getattr. by rewrite replaced_lookup_eq.
  - by eapply Hspec.
Qed.

Lemma shard_parameter_installs_sharded_value_witness :
  exists w',
    shard_parameter env_agree 0 "w" chunk0 0 None net_world = (inr tt, w') /\
    exists m', modules w' !! 0 = Some m' /\
      getattr m' "w" = inr (VShardedTensor (mkShardedTensor chunk0 dense_4_8)).
Proof.
  eexists. split; [reflexivity|].
  assert (Hspec : forall s t r g st,
             spec_shard env_agree s t r g = inr st -> _sharding_spec st = s).
  { intros s t r g st. simpl. unfold sample_shard.
    destruct s; [|discriminate]. intros H. injection H as <-. reflexivity. }
  destruct (shard_parameter_installs_sharded_value env_agree 0 "w" chunk0 0 None
              net_world _ Hspec eq_refl)
    as (m & t & st & m1 & m' & Hm & Hget & Hsh & _ & _ & Hm' & Hget' & _ & _).
  exists m'. split; [exact Hm'|].
  injection Hm as <-. injection Hget as <-. injection Hsh as <-. exact Hget'.
Defined.

(** C10. After [shard_parameter] has returned, the name is no longer a key
    of the module's parameter table, so an enumeration of the module's
    parameters does not list it; the sharded value is a plain attribute,
    and attribute lookup by the name yields it. *)
Theorem shard_parameter_removes_parameter_entry
    (E : Collaborators) (module : nat) (name : string) (spec : ShardingSpec)
    (src_rank : Z) (process_group : option ProcessGroup) (w w' : world) :
  shard_parameter E module name spec src_rank process_group w = (inr tt, w') ->
  exists m' st,
    modules w' !! module = Some m' /\
    (name ∉ (_parameters m').*1) /\
    parameters_getitem m' name = inl (KeyError name) /\
    attr_lookup m' name = Some (MPlain (VShardedTensor st)) /\
    getattr m' name = inr (VShardedTensor st).
Proof.
  intros Hrun.
  apply shard_parameter_inr in Hrun as (m & t & st & w1 & Hm & Hget & Hc & Hst & Hsh & ->).
  exists (replaced m name st), st. split_and!.
  - simpl. by rewrite lookup_insert_eq.
  - apply replaced_not_parameter.
  - unfold parameters_getitem. by rewrite replaced_lookup_eq.
  - apply replaced_lookup_eq.
  - unfold getattr. by rewrite replaced_lookup_eq.
Qed.

Lemma shard_parameter_removes_parameter_entry_witness :
  exists w' m',
    shard_parameter env_agree 0 "w" chunk0 0 None net_world = (inr tt, w') /\
    modules w' !! 0 = Some m' /\
    (_parameters net).*1 = ["w"; "strided"; "bias"] /\
    (_parameters m').*1 = ["strided"; "bias"] /\
    "w" ∉ (_parameters m').*1.
Proof.
  eexists _, _. split; [reflexivity|]. split; [reflexivity|].
  split; [reflexivity|]. split; [reflexivity|].
  destruct (shard_parameter_removes_parameter_entry env_agree 0 "w" chunk0 0 None
              net_world _ eq_refl) as (m' & st & Hm' & Hnot & _).
  injection Hm' as <-. exact Hnot.
Defined.

(** ** The forward hooks *)

(** C6. On a sharded output the collapse hook returns the local shard; it
    removes the split dimension exactly when the specification is a chunk
    specification and the local shard has extent 1 along that dimension.
    With a chunk specification on dimension 0, a local shard of shape
    [[1; 16]] comes back with shape [[16]] and one of shape [[2; 16]]
    comes back unchanged. *)
Theorem collect_local_shard_hook
    (E : Collaborators) (st : ShardedTensor) :
  (forall dim placements n,
     _sharding_spec st = ChunkShardingSpec dim placements ->
     tensor_size (local_shard st) dim = inr n ->
     (n = 1%Z ->
        exists i, normalize_dim (length (shape (local_shard st))) dim = Some i /\
          hook_func E CollectLocalShardHook (VShardedTensor st) =
            inr (VTensor (mkTensor (delete i (shape (local_shard st)))
                            (contiguous (local_shard st)))))
     /\ (n <> 1%Z ->
        hook_func E CollectLocalShardHook (VShardedTensor st) =
          inr (VTensor (local_shard st))))
  /\ (forall payload,
     _sharding_spec st = OpaqueShardingSpec payload ->
     hook_func E CollectLocalShardHook (VShardedTensor st) = inr (VTensor (local_shard st)))
  /\ (forall placements c,
     hook_func E CollectLocalShardHook
       (VShardedTensor (mkShardedTensor (ChunkShardingSpec 0 placements)
                          (mkTensor [1%Z; 16%Z] c))) =
       inr (VTensor (mkTensor [16%Z] c))
     /\ hook_func E CollectLocalShardHook
       (VShardedTensor (mkShardedTensor (ChunkShardingSpec 0 placements)
                          (mkTensor [2%Z; 16%Z] c))) =
       inr (VTensor (mkTensor [2%Z; 16%Z] c))).
Proof.
  split_and!.
  - intros dim placements n Hspec Hsize. simpl. unfold collect_hook_func, local_tensor.
    rewrite Hspec, Hsize. unfold tensor_size in Hsize. unfold squeeze.
    destruct (normalize_dim _ dim) as [i|] eqn:Hi; [|done].
    destruct (shape (local_shard st) !! i) as [n'|] eqn:Hn; [|done].
    injection Hsize as ->. split.
    + intros ->. exists i. by rewrite !decide_True.
    + intros Hne. by rewrite decide_False.
  - intros payload Hspec. simpl. unfold collect_hook_func. by rewrite Hspec.
  - intros placements c. split; reflexivity.
Qed.

Lemma collect_local_shard_hook_witness :
  hook_func env_agree CollectLocalShardHook
    (VShardedTensor (mkShardedTensor chunk1 (mkTensor [4%Z; 1%Z; 3%Z] true))) =
    inr (VTensor (mkTensor [4%Z; 3%Z] true))
  /\ hook_func env_agree CollectLocalShardHook
    (VShardedTensor (mkShardedTensor chunk1 (mkTensor [4%Z; 2%Z; 3%Z] true))) =
    inr (VTensor (mkTensor [4%Z; 2%Z; 3%Z] true))
  /\ hook_func env_agree CollectLocalShardHook
    (VShardedTensor (mkShardedTensor (OpaqueShardingSpec []) (mkTensor [1%Z; 16%Z] true))) =
    inr (VTensor (mkTensor [1%Z; 16%Z] true)).
Proof.
  split_and!.
  - destruct (collect_local_shard_hook env_agree
                (mkShardedTensor chunk1 (mkTensor [4%Z; 1%Z; 3%Z] true))) as (H & _ & _).
    destruct (H 1%Z _ 1%Z eq_refl eq_refl) as [H1 _].
    destruct (H1 eq_refl) as (i & Hi & ->). injection Hi as <-. reflexivity.
  - destruct (collect_local_shard_hook env_agree
                (mkShardedTensor chunk1 (mkTensor [4%Z; 2%Z; 3%Z] true))) as (H & _ & _).
    destruct (H 1%Z _ 2%Z eq_refl eq_refl) as [_ H2]. apply H2. discriminate.
  - destruct (collect_local_shard_hook env_agree
                (mkShardedTensor (OpaqueShardingSpec []) (mkTensor [1%Z; 16%Z] true)))
      as (_ & H & _).
    apply (H [] eq_refl).
Defined.



(** ** The process-group scoping context *)

(** C8. Entering [load_with_process_group] while an override is active
    raises the re-entrancy [RuntimeError] and changes nothing.  Otherwise
    the body runs with the given group as the override, which
    [_get_current_process_group] then returns, and the override is
    cleared when the body returns and when it raises;
    [_get_current_process_group] returns the default group when no
    override is set, so also after the scope was left.  In particular a
    scope entered inside another one raises, and the override is absent
    after the outer scope. *)
Theorem load_with_process_group_scope
    (E : Collaborators) (A : Type) (g : ProcessGroup)
    (body : option ProcessGroup -> M A) (w : world) :
  (forall g', _CURRENT_PROCESS_GROUP w = Some g' ->
     load_with_process_group (Some g) body w = (inl (RuntimeError MsgProcessGroupAlreadySet), w)
     /\ classify (RuntimeError MsgProcessGroupAlreadySet) = ReentrancyError
     /\ _get_current_process_group E w = (inr g', w))
  /\ (_CURRENT_PROCESS_GROUP w = None ->
     let inside := set_current (Some g) w in
     _get_current_process_group E w = (inr (_get_default_group E), w)
     /\ _get_current_process_group E inside = (inr g, inside)
     /\ (exists r w2,
          body (Some g) inside = (r, w2)
          /\ load_with_process_group (Some g) body w = (r, set_current None w2)
          /\ _CURRENT_PROCESS_GROUP (set_current None w2) = None
          /\ _get_current_process_group E (set_current None w2) =
               (inr (_get_default_group E), set_current None w2))
     /\ (forall g1 (inner : option ProcessGroup -> M A),
          load_with_process_group (Some g)
            (fun _ => load_with_process_group (Some g1) inner) w =
            (inl (RuntimeError MsgProcessGroupAlreadySet), set_current None w))).
Proof.
  split.
  - intros g' Hcur. unfold load_with_process_group, _get_current_process_group.
    rewrite Hcur. done.
  - intros Hcur inside. unfold load_with_process_group, _get_current_process_group.
    rewrite Hcur. split_and!; try done.
    destruct (body (Some g) inside) as [r w2] eqn:Hb. exists r, w2.
    subst inside. by rewrite Hb.
Qed.

Lemma load_with_process_group_scope_witness :
  load_with_process_group (A := unit) (Some (Group 1)) (fun _ => ret tt)
    (mkWorld ∅ (Some (Group 2)) []) =
    (inl (RuntimeError MsgProcessGroupAlreadySet), mkWorld ∅ (Some (Group 2)) [])
  /\ load_with_process_group (Some (Group 1))
       (fun _ => _get_current_process_group env_agree) empty_world =
       (inr (Group 1), empty_world)
  /\ load_with_process_group (A := unit) (Some (Group 1))
       (fun _ => raise (KeyError "k")) empty_world = (inl (KeyError "k"), empty_world)
  /\ _get_current_process_group env_agree empty_world = (inr (Group 0), empty_world).
Proof.
  split_and!.
  - destruct (load_with_process_group_scope env_agree unit (Group 1) (fun _ => ret tt)
                (mkWorld ∅ (Some (Group 2)) [])) as [H _].
    destruct (H (Group 2) eq_refl) as (-> & _). reflexivity.
  - destruct (load_with_process_group_scope env_agree ProcessGroup (Group 1)
                (fun _ => _get_current_process_group env_agree) empty_world) as [_ H].
    destruct (H eq_refl) as (_ & _ & (r & w2 & Hb & -> & _) & _).
    injection Hb as <- <-. reflexivity.
  - destruct (load_with_process_group_scope env_agree unit (Group 1)
                (fun _ => raise (KeyError "k")) empty_world) as [_ H].
    destruct (H eq_refl) as (_ & _ & (r & w2 & Hb & -> & _) & _).
    injection Hb as <- <-. reflexivity.
  - destruct (load_with_process_group_scope env_agree unit (Group 1) (fun _ => ret tt)
                empty_world) as [_ H].
    destruct (H eq_refl) as (-> & _). reflexivity.
Defined.

(** ** Enumeration of the module tree *)

Section NamedModules.

Implicit Types (memo : gset nat) (l : list (string * nat)).

(** What a visit returns: the modules it lists are distinct, were not in
    [memo], and are what it adds to [memo]. *)
Lemma named_modules_children_inv visit prefix children memo l memo' :
  (forall memo prefix c l memo', visit memo prefix c = Some (l, memo') ->
     memo' = memo ∪ list_to_set l.*2 /\ NoDup l.*2 /\ forall id, id ∈ l.*2 -> id ∉ memo) ->
  named_modules_children visit prefix children memo = Some (l, memo') ->
  memo' = memo ∪ list_to_set l.*2 /\ NoDup l.*2 /\ forall id, id ∈ l.*2 -> id ∉ memo.
Proof.
  intros Hvisit. revert memo l memo'.
  induction children as [|[name [c|]] rest IH]; intros memo l memo'; simpl.
  - intros [= <- <-]. simpl. split_and!; [set_solver|constructor|set_solver].
  - destruct (visit memo (join_prefix prefix name) c) as [[l1 memo1]|] eqn:Hv; [|done].
    destruct (named_modules_children visit prefix rest memo1) as [[l2 memo2]|] eqn:Hc; [|done].
    intros [= <- <-].
    apply Hvisit in Hv as (-> & Hnd1 & Hfresh1).
    apply IH in Hc as (-> & Hnd2 & Hfresh2).
    rewrite fmap_app. split_and!.
    + rewrite list_to_set_app_L. set_solver.
    + apply NoDup_app. split_and!; [done| |done].
      intros id Hid1 Hid2. apply Hfresh2 in Hid2. set_solver.
    + intros id [Hid|Hid]%elem_of_app; [by apply Hfresh1|].
      apply Hfresh2 in Hid. set_solver.
  - apply IH.
Qed.

Lemma named_modules_aux_inv fuel ms memo prefix self l memo' :
  named_modules_aux fuel ms memo prefix self = Some (l, memo') ->
  memo' = memo ∪ list_to_set l.*2 /\ NoDup l.*2 /\ forall id, id ∈ l.*2 -> id ∉ memo.
Proof.
  revert memo prefix self l memo'.
  induction fuel as [|fuel IH]; intros memo prefix self l memo'; simpl.
  - destruct (decide (self ∈ memo)); [|done].
    intros [= <- <-]. simpl. split_and!; [set_solver|constructor|set_solver].
  - destruct (decide (self ∈ memo)) as [Hin|Hout].
    { intros [= <- <-]. simpl. split_and!; [set_solver|constructor|set_solver]. }
    destruct (named_modules_children _ _ _ _) as [[l0 memo0]|] eqn:Hc; [|done].
    intros [= <- <-].
    apply named_modules_children_inv in Hc as (-> & Hnd & Hfresh); [|exact IH].
    simpl. split_and!.
    + set_solver.
    + constructor; [|done]. intros Hin. apply Hfresh in Hin. set_solver.
    + intros id [->|Hid]%elem_of_cons; [done|]. apply Hfresh in Hid. set_solver.
Qed.

Lemma named_modules_children_total visit prefix children memo :
  (forall memo prefix c l memo', visit memo prefix c = Some (l, memo') ->
     memo' = memo ∪ list_to_set l.*2 /\ NoDup l.*2 /\ forall id, id ∈ l.*2 -> id ∉ memo) ->
  (forall memo' prefix c, memo ⊆ memo' -> is_Some (visit memo' prefix c)) ->
  is_Some (named_modules_children visit prefix children memo).
Proof.
  intros Hinv. revert memo.
  induction children as [|[name [c|]] rest IH]; intros memo Htot; simpl.
  - done.
  - destruct (Htot memo (join_prefix prefix name) c) as [[l1 memo1] Hv]; [done|].
    rewrite Hv. apply Hinv in Hv as (-> & _ & _).
    destruct (IH (memo ∪ list_to_set l1.*2)) as [[l2 memo2] Hc].
    + intros memo' prefix' c' Hsub. apply Htot. set_solver.
    + rewrite Hc. done.
  - by apply IH.
Qed.

(** The enumeration never runs out of fuel: every descent adds a module
    of the heap to [memo]. *)
Lemma named_modules_aux_total fuel ms memo prefix self :
  size (dom ms ∖ memo) < fuel ->
  is_Some (named_modules_aux fuel ms memo prefix self).
Proof.
  revert memo prefix self.
  induction fuel as [|fuel IH]; intros memo prefix self Hfuel; [lia|]. simpl.
  destruct (decide (self ∈ memo)) as [Hin|Hout]; [done|].
  destruct (ms !! self) as [m|] eqn:Hm; simpl.
  - destruct (named_modules_children_total (named_modules_aux fuel ms) prefix
                (_modules m) ({[self]} ∪ memo)) as [[l memo'] Hc].
    + intros. by eapply named_modules_aux_inv.
    + intros memo' prefix' c Hsub. apply IH.
      assert (Hlt : dom ms ∖ memo' ⊂ dom ms ∖ memo).
      { assert (self ∈ dom ms) by (apply elem_of_dom; eauto). set_solver. }
      apply subset_size in Hlt. lia.
    + rewrite Hc. done.
  - done.
Qed.

Lemma named_modules_root ms root :
  exists l, named_modules ms root = ("", root) :: l.
Proof.
  unfold named_modules.
  destruct (named_modules_aux_total (S (size ms)) ms ∅ "" root) as [[l memo] H].
  { rewrite difference_empty_L, size_dom. lia. }
  rewrite H. simpl in H. rewrite decide_False in H by set_solver.
  destruct (named_modules_children _ _ _ _) as [[l0 memo0]|]; [|done].
  injection H as <- _. eauto.
Qed.

Lemma named_modules_NoDup ms root : NoDup (named_modules ms root).*2.
Proof.
  unfold named_modules.
  destruct (named_modules_aux _ _ _ _ _) as [[l memo]|] eqn:H; [|constructor].
  by apply named_modules_aux_inv in H as (_ & ? & _).
Qed.

End NamedModules.

(** ** The plan application engine *)

Section ShardModule.

Variable E : Collaborators.
Variable p : ShardingPlan.
Variable src_rank : Z.
Variable process_group : option ProcessGroup.

Lemma held_ids_ext m m1 keys :
  (forall k, k ∈ keys -> attr_lookup m1 k = attr_lookup m k) ->
  held_ids m1 keys = held_ids m keys.
Proof.
  induction keys as [|k keys IH]; intros Hext; simpl; [done|].
  rewrite Hext by (apply elem_of_cons; by left).
  rewrite IH; [done|]. intros k' Hk'. apply Hext, elem_of_cons. by right.
Qed.

Lemma held_ids_app m keys1 keys2 :
  held_ids m (keys1 ++ keys2) = (held_ids m keys1 ++ held_ids m keys2)%list.
Proof. apply omap_app. Qed.

Lemma held_ids_singleton m k :
  held_ids m [k] =
  match attr_lookup m k with
  | Some (MParam (Some q)) => [param_id q]
  | _ => []
  end.
Proof.
  unfold held_ids. cbn [omap list_omap].
  by destruct (attr_lookup m k) as [[[q|]| |]|].
Qed.

Lemma replaced_module_type m name st : module_type (replaced m name st) = module_type m.
Proof. done. Qed.

Lemma replaced_forward_hooks m name st :
  _forward_hooks (replaced m name st) = _forward_hooks m.
Proof. done. Qed.

(** One iteration of the loop over the parameter keys, in a run that
    completes. *)
Lemma shard_module_params_cons mod_ mod_prefix k rest memo w w' m :
  modules w !! mod_ = Some m ->
  shard_module_params E mod_ mod_prefix p src_rank process_group (k :: rest) memo w
    = (inr tt, w') ->
  exists m1 w1 memo1,
    modules w1 !! mod_ = Some m1
    /\ (forall id, id <> mod_ -> modules w1 !! id = modules w !! id)
    /\ module_type m1 = module_type m
    /\ _forward_hooks m1 = _forward_hooks m
    /\ (forall k', k' <> k -> attr_lookup m1 k' = attr_lookup m k')
    /\ (forall x, x ∈ memo1 <-> x ∈ memo \/ x ∈ held_ids m [k])
    /\ param_outcome E p src_rank process_group mod_prefix m m1 memo [] k
    /\ shard_module_params E mod_ mod_prefix p src_rank process_group rest memo1 w1
         = (inr tt, w').
Proof.
  intros Hm Hrun. simpl in Hrun. revert Hrun.
  unfold bind at 1, get_module. rewrite Hm.
  unfold bind at 1, lift, parameters_getitem.
  destruct (attr_lookup m k) as [[[param|]| |]|] eqn:Hk; try done.
  - destruct (decide (param_id param ∈ memo)) as [Hin|Hout].
    + intros Hrest. exists m, w, memo. split_and!; try done.
      * intros x. rewrite held_ids_singleton, Hk. set_solver.
      * exists (Some param). split; [done|]. split; [done|].
        intros Hns. exfalso. apply Hns. by left.
    + assert (Hmemo : forall x, x ∈ ({[param_id param]} ∪ memo : gset nat) <->
                                x ∈ memo \/ x ∈ held_ids m [k]).
      { intros x. rewrite held_ids_singleton, Hk. set_solver. }
      assert (Hns : ~ seen m memo [] param).
      { intros [?|Hs]; [done|]. by apply elem_of_nil in Hs. }
      destruct (plan p !! join_prefix mod_prefix k) as [spec|] eqn:Hplan.
      * unfold bind at 1.
        destruct (shard_parameter E mod_ k spec src_rank process_group w)
          as [[e|[]] w1] eqn:Hsp; [done|].
        intros Hrest.
        apply shard_parameter_inr in Hsp
          as (m0 & t & st & w0 & Hm0 & Hget & Hc & Hst & Hsh & ->).
        rewrite Hm in Hm0. injection Hm0 as <-.
        unfold getattr in Hget. rewrite Hk in Hget. injection Hget as <-.
        exists (replaced m k st), (set_modules (<[mod_ := replaced m k st]> (modules w)) w0),
          ({[param_id param]} ∪ memo).
        split_and!; try done.
        -- simpl. by rewrite lookup_insert_eq.
        -- intros id Hid. simpl. by rewrite lookup_insert_ne.
        -- intros k' Hk'. by apply replaced_lookup_ne.
        -- exists (Some param). split; [done|]. split; [done|].
           intros _. rewrite Hplan. exists st. split; [done|]. apply replaced_lookup_eq.
      * unfold bind at 1, ret. intros Hrest.
        exists m, w, ({[param_id param]} ∪ memo). split_and!; try done.
        exists (Some param). split; [done|]. split; [done|].
        intros _. by rewrite Hplan.
  - intros Hrest. exists m, w, memo. split_and!; try done.
    + intros x. rewrite held_ids_singleton, Hk. set_solver.
    + exists None. done.
Qed.

Lemma param_outcome_shift mod_prefix m m1 m' memo memo1 k0 earlier k :
  (forall k', k' <> k0 -> attr_lookup m1 k' = attr_lookup m k') ->
  (forall x, x ∈ memo1 <-> x ∈ memo \/ x ∈ held_ids m [k0]) ->
  k <> k0 -> k0 ∉ earlier ->
  param_outcome E p src_rank process_group mod_prefix m1 m' memo1 earlier k ->
  param_outcome E p src_rank process_group mod_prefix m m' memo (k0 :: earlier) k.
Proof.
  intros Hfr Hmemo Hne Hnotin (v & Hv & Hout).
  exists v. rewrite <- (Hfr k) by done. split; [done|].
  destruct v as [param|]; [|done].
  assert (Hseen : seen m1 memo1 earlier param <-> seen m memo (k0 :: earlier) param).
  { unfold seen. rewrite Hmemo.
    rewrite (held_ids_ext m m1 earlier).
    - change (k0 :: earlier) with ([k0] ++ earlier)%list.
      rewrite held_ids_app, elem_of_app. tauto.
    - intros k' Hk'. apply Hfr. intros ->. done. }
  by rewrite <- Hseen.
Qed.

(** The loop over the parameter keys, in a run that completes. *)
Lemma shard_module_params_spec mod_ mod_prefix keys memo w w' m :
  modules w !! mod_ = Some m ->
  shard_module_params E mod_ mod_prefix p src_rank process_group keys memo w
    = (inr tt, w') ->
  exists m',
    modules w' !! mod_ = Some m'
    /\ (forall id, id <> mod_ -> modules w' !! id = modules w !! id)
    /\ module_type m' = module_type m
    /\ _forward_hooks m' = _forward_hooks m
    /\ (forall k, k ∉ keys -> attr_lookup m' k = attr_lookup m k)
    /\ (NoDup keys -> forall i k, keys !! i = Some k ->
         param_outcome E p src_rank process_group mod_prefix m m' memo (take i keys) k).
Proof.
  revert memo w m. induction keys as [|k0 rest IH]; intros memo w m Hm Hrun.
  - injection Hrun as <-. exists m. split_and!; try done.
  - apply (shard_module_params_cons _ _ _ _ _ _ _ _ Hm) in Hrun
      as (m1 & w1 & memo1 & Hm1 & Hids & Hty & Hhk & Hfr & Hmemo & Hout0 & Hrest).
    apply (IH _ _ _ Hm1) in Hrest as (m' & Hm' & Hids' & Hty' & Hhk' & Hfr' & Hout').
    exists m'. split_and!.
    + done.
    + intros id Hid. by rewrite Hids', Hids.
    + congruence.
    + congruence.
    + intros k [Hk0 Hk]%not_elem_of_cons. by rewrite Hfr', Hfr.
    + intros [Hk0 Hnd]%NoDup_cons [|i] k Hi; simpl in Hi.
      * injection Hi as <-. simpl.
        destruct Hout0 as (v & Hv & Hout0). exists v. split; [done|].
        rewrite (Hfr' k0 Hk0). exact Hout0.
      * simpl. apply (param_outcome_shift _ _ m1 _ _ memo1); try done.
        -- intros ->. apply Hk0. by eapply list_elem_of_lookup_2.
        -- intros (j & Hj & _)%elem_of_take. apply Hk0. by eapply list_elem_of_lookup_2.
        -- by apply Hout'.
Qed.

End ShardModule.

Section ShardModuleLoop.

Variable E : Collaborators.
Variable p : ShardingPlan.
Variable src_rank : Z.
Variable process_group : option ProcessGroup.

Lemma parameters_keys_NoDup m : NoDup (attrs m).*1 -> NoDup (_parameters m).*1.
Proof.
  unfold _parameters.
  assert (Hin : forall (l : list (string * member)) k,
    k ∈ (omap (fun kv => match kv.2 with MParam q => Some (kv.1, q) | _ => None end) l).*1 ->
    k ∈ l.*1).
  { intros l k. apply (parameters_keys_attrs (mkModule "" l [])). }
  generalize dependent (attrs m). intros l.
  induction l as [|[k x] l IH]; simpl; [constructor|].
  intros [Hk Hl]%NoDup_cons. destruct x as [q| |]; simpl; auto.
  constructor; auto.
Qed.

Lemma py_register_forward_hook_run mod_ h w m :
  modules w !! mod_ = Some m ->
  py_register_forward_hook mod_ h w =
    (inr tt, set_modules (<[mod_ := register_forward_hook m h]> (modules w)) w).
Proof.
  intros Hm. unfold py_register_forward_hook, bind, get_module, put_module.
  by rewrite Hm.
Qed.

(** One iteration of the loop over the modules, in a run that completes. *)
Lemma shard_module_visit_spec mod_prefix mod_ w w' :
  shard_module_visit E p src_rank process_group mod_prefix mod_ w = (inr tt, w') ->
  exists m m',
    modules w !! mod_ = Some m
    /\ modules w' !! mod_ = Some m'
    /\ (forall id, id <> mod_ -> modules w' !! id = modules w !! id)
    /\ visited E p src_rank process_group mod_prefix m m'.
Proof.
  unfold shard_module_visit. unfold bind at 1, get_module.
  destruct (modules w !! mod_) as [m|] eqn:Hm; [|done].
  unfold bind at 1.
  destruct (shard_module_params _ _ _ _ _ _ _ _ w) as [[e|[]] w1] eqn:Hparams; [done|].
  apply (shard_module_params_spec _ _ _ _ _ _ _ _ _ _ m Hm) in Hparams
    as (m1 & Hm1 & Hids & Hty & Hhk & Hfr & Hout).
  assert (Hstep1 : exists w2,
    (match output_plan p with
     | Some op =>
         match op !! mod_prefix with
         | Some spec => _reshard_output mod_ spec;; ret tt
         | None => ret tt
         end
     | None => ret tt
     end) w1 = (inr tt, w2)
    /\ (forall id, id <> mod_ -> modules w2 !! id = modules w1 !! id)
    /\ modules w2 !! mod_ =
         Some (mkModule (module_type m1) (attrs m1)
                 (_forward_hooks m1 ++
                  match output_plan p with
                  | Some op =>
                      match op !! mod_prefix with
                      | Some spec => [ReshardHook spec]
                      | None => []
                      end
                  | None => []
                  end))).
  { destruct (output_plan p) as [op|]; [destruct (op !! mod_prefix) as [spec|]|].
    - eexists. unfold _reshard_output, bind.
      rewrite (py_register_forward_hook_run _ _ _ _ Hm1). split; [done|]. simpl. split.
      + intros id Hid. by rewrite lookup_insert_ne.
      + by rewrite lookup_insert_eq.
    - exists w1. rewrite app_nil_r. by destruct m1.
    - exists w1. rewrite app_nil_r. by destruct m1. }
  destruct Hstep1 as (w2 & Hrun1 & Hids2 & Hm2).
  unfold bind at 1. rewrite Hrun1.
  set (m2 := mkModule _ _ _) in Hm2.
  assert (Hstep2 : exists w3,
    (match return_local_tensor p with
     | Some names =>
         if decide (mod_prefix ∈ names) then _collect_local_shard mod_;; ret tt else ret tt
     | None => ret tt
     end) w2 = (inr tt, w3)
    /\ (forall id, id <> mod_ -> modules w3 !! id = modules w2 !! id)
    /\ modules w3 !! mod_ =
         Some (mkModule (module_type m1) (attrs m1)
                 (_forward_hooks m1 ++ installed_hooks p mod_prefix))).
  { unfold installed_hooks.
    destruct (return_local_tensor p) as [names|];
      [destruct (decide (mod_prefix ∈ names))|].
    - eexists. unfold _collect_local_shard, bind.
      rewrite (py_register_forward_hook_run _ _ _ _ Hm2). split; [done|]. simpl. split.
      + intros id Hid. by rewrite lookup_insert_ne.
      + rewrite lookup_insert_eq. unfold register_forward_hook. simpl.
        by rewrite <- app_assoc.
    - exists w2. by rewrite app_nil_r.
    - exists w2. by rewrite app_nil_r. }
  destruct Hstep2 as (w3 & Hrun2 & Hids3 & Hm3).
  rewrite Hrun2. intros [= <-].
  eexists m, _. split; [done|]. split; [exact Hm3|]. split.
  - intros id Hid. by rewrite Hids3, Hids2, Hids.
  - unfold visited. simpl. split_and!; try done.
    + by rewrite Hhk.
    + intros Hnd i k Hi.
      destruct (Hout (parameters_keys_NoDup _ Hnd) i k Hi) as (v & Hv & Hov).
      exists v. done.
Qed.

(** The loop over the modules, in a run that completes: modules that are
    not enumerated are untouched, every enumerated module was visited
    once. *)
Lemma shard_module_loop_spec l w w' :
  NoDup l.*2 ->
  shard_module_loop E p src_rank process_group l w = (inr tt, w') ->
  (forall id, id ∉ l.*2 -> modules w' !! id = modules w !! id)
  /\ (forall mod_prefix mod_, (mod_prefix, mod_) ∈ l ->
       exists m m',
         modules w !! mod_ = Some m /\ modules w' !! mod_ = Some m'
         /\ visited E p src_rank process_group mod_prefix m m').
Proof.
  revert w. induction l as [|[prefix0 id0] rest IH]; intros w Hnd; simpl.
  - intros [= <-]. split; [done|]. intros ? ? H. by apply elem_of_nil in H.
  - apply NoDup_cons in Hnd as [Hid0 Hnd]. unfold bind at 1.
    destruct (shard_module_visit _ _ _ _ _ _ w) as [[e|[]] w1] eqn:Hvisit; [done|].
    intros Hrest.
    apply shard_module_visit_spec in Hvisit as (m0 & m0' & Hm0 & Hm0' & Hids & Hv).
    apply (IH _ Hnd) in Hrest as [Hout Hin]. split.
    + intros id [Hne Hid]%not_elem_of_cons. by rewrite Hout, Hids.
    + intros mod_prefix mod_ [[= -> ->]|Hel]%elem_of_cons.
      * exists m0, m0'. split; [done|]. split; [|done]. by rewrite Hout.
      * destruct (Hin _ _ Hel) as (m & m' & Hm & Hm' & Hvis).
        exists m, m'. split; [|done]. rewrite <- Hids; [done|].
        intros ->. apply Hid0. apply list_elem_of_fmap. by exists (mod_prefix, id0).
Qed.

End ShardModuleLoop.

Section ShardModuleClaims.

Variable E : Collaborators.
Variable p : ShardingPlan.
Variable src_rank : Z.
Variable process_group : option ProcessGroup.

Lemma parameters_elem_of m k v :
  attr_lookup m k = Some (MParam v) -> k ∈ (_parameters m).*1.
Proof.
  unfold attr_lookup, _parameters. generalize (attrs m) as l.
  induction l as [|[k' x] l IH]; simpl; [done|].
  destruct (decide (k' = k)) as [->|Hne].
  - intros [= ->]. simpl. apply elem_of_cons. by left.
  - intros H. destruct x; simpl; auto. apply elem_of_cons. right. auto.
Qed.

Lemma parameters_lookup m k :
  NoDup (attrs m).*1 -> k ∈ (_parameters m).*1 ->
  exists v, attr_lookup m k = Some (MParam v).
Proof.
  intros Hnd ([k' v] & -> & Hin)%list_elem_of_fmap. exists v. simpl.
  apply list_elem_of_omap in Hin as ([k1 x] & Hin & Hx). simpl in Hx.
  destruct x as [q| |]; try done. injection Hx as -> ->.
  by apply alist_lookup_NoDup.
Qed.

Lemma held_ids_fresh m keys i k param :
  NoDup (held_ids m keys) -> keys !! i = Some k ->
  attr_lookup m k = Some (MParam (Some param)) ->
  param_id param ∉ held_ids m (take i keys).
Proof.
  intros Hnd Hi Hk Hin.
  rewrite <- (take_drop_middle keys i k Hi), held_ids_app in Hnd.
  apply NoDup_app in Hnd as (_ & Hdisj & _). apply (Hdisj _ Hin).
  change (k :: drop (S i) keys) with ([k] ++ drop (S i) keys)%list.
  rewrite held_ids_app, held_ids_singleton, Hk. apply elem_of_app. left.
  apply elem_of_cons. by left.
Qed.

Lemma shard_module_visited root w w' :
  shard_module E root p src_rank process_group w = (inr tt, w') ->
  (forall id, id ∉ (named_modules (modules w) root).*2 ->
     modules w' !! id = modules w !! id)
  /\ (forall mod_prefix mod_, (mod_prefix, mod_) ∈ named_modules (modules w) root ->
       exists m m',
         modules w !! mod_ = Some m /\ modules w' !! mod_ = Some m'
         /\ visited E p src_rank process_group mod_prefix m m').
Proof.
  unfold shard_module. apply shard_module_loop_spec, named_modules_NoDup.
Qed.

End ShardModuleClaims.

(** C1, as the code has it.  In a run of [shard_module] that completes,
    for every module it visits: a parameter key whose parameter object is
    also held under an earlier key of the same module is skipped, and
    still holds the dense parameter it held (not the sharded value); a
    key that is the first position of the whole traversal to hold its
    parameter object (no earlier key of its module holds it, and no
    module enumerated before its module holds it) is replaced by the
    sharded value when the plan names it (under the path at which the
    module is first reached in pre-order) and left as it is when not.
    Nothing is said of a key whose object is held by a module enumerated
    earlier. *)
Theorem shard_module_skips_aliases_within_module
    (E : Collaborators) (p : ShardingPlan) (src_rank : Z)
    (process_group : option ProcessGroup) (root : nat) (w w' : world)
    (earlier later : list (string * nat))
    (mod_prefix : string) (mod_ : nat) (m : NNModule) :
  shard_module E root p src_rank process_group w = (inr tt, w') ->
  named_modules (modules w) root = (earlier ++ (mod_prefix, mod_) :: later)%list ->
  modules w !! mod_ = Some m ->
  NoDup (attrs m).*1 ->
  exists m', modules w' !! mod_ = Some m' /\
    forall i k param,
      (_parameters m).*1 !! i = Some k ->
      attr_lookup m k = Some (MParam (Some param)) ->
      (param_id param ∈ held_ids m (take i (_parameters m).*1) ->
         attr_lookup m' k = Some (MParam (Some param)))
      /\ (param_id param ∉ held_ids m (take i (_parameters m).*1) ->
         (forall prefix0 id0 m0, (prefix0, id0) ∈ earlier ->
            modules w !! id0 = Some m0 ->
            param_id param ∉ held_ids m0 (_parameters m0).*1) ->
         match plan p !! join_prefix mod_prefix k with
         | Some spec =>
             exists st, spec_shard E spec (param_data param) src_rank process_group = inr st
               /\ attr_lookup m' k = Some (MPlain (VShardedTensor st))
         | None => attr_lookup m' k = Some (MParam (Some param))
         end).
Proof.
  intros Hrun Henum Hm Hnd.
  assert (Hin : (mod_prefix, mod_) ∈ named_modules (modules w) root).
  { rewrite Henum. apply elem_of_app. right. apply elem_of_cons. by left. }
  apply shard_module_visited in Hrun as [_ Hvis].
  destruct (Hvis _ _ Hin) as (m0 & m' & Hm0 & Hm' & _ & _ & _ & Hout).
  rewrite Hm in Hm0. injection Hm0 as <-.
  exists m'. split; [done|]. intros i k param Hi Hk.
  destruct (Hout Hnd i k Hi) as (v & Hv & Hov).
  rewrite Hk in Hv. injection Hv as <-. destruct Hov as [Hseen Hfresh]. split.
  - intros Hheld. apply Hseen. by right.
  - intros Hheld _. apply Hfresh. intros [Hmemo|?]; [|done]. set_solver.
Qed.

Lemma shard_module_skips_aliases_within_module_witness :
  (exists w' m',
    shard_module env_agree 0 (plan_of ["w1"; "w2"]) 0 None alias_world = (inr tt, w')
    /\ modules w' !! 0 = Some m'
    /\ attr_lookup m' "w2" = Some (MParam (Some shared_param))
    /\ attr_lookup m' "w1" =
         Some (MPlain (VShardedTensor (mkShardedTensor chunk0 dense_4_8))))
  /\ (exists w' m',
    shard_module env_agree 0 (plan_of ["encoder.weight"]) 0 None tied_world = (inr tt, w')
    /\ modules w' !! 1 = Some m'
    /\ attr_lookup m' "weight" =
         Some (MPlain (VShardedTensor (mkShardedTensor chunk0 dense_4_8)))).
Proof.
  split.
  - eexists _, _. split; [reflexivity|]. split; [reflexivity|].
    assert (Hnd : NoDup (attrs alias_net).*1).
    { apply (bool_decide_unpack _). vm_compute. exact I. }
    destruct (shard_module_skips_aliases_within_module env_agree (plan_of ["w1"; "w2"]) 0 None
                0 alias_world _ [] [] "" 0 alias_net eq_refl eq_refl eq_refl Hnd)
      as (m' & Hm' & H).
    injection Hm' as <-. split.
    + destruct (H 1 "w2" shared_param eq_refl eq_refl) as [Hskip _].
      apply Hskip. apply elem_of_cons. by left.
    + destruct (H 0 "w1" shared_param eq_refl eq_refl) as [_ Hfirst].
      destruct Hfirst as (st & Hst & Hw).
      * apply not_elem_of_nil.
      * intros prefix0 id0 m0 Hel. by apply elem_of_nil in Hel.
      * injection Hst as <-. exact Hw.
  - eexists _, _. split; [reflexivity|]. split; [reflexivity|].
    assert (Hnd : NoDup (attrs tied_layer).*1).
    { apply (bool_decide_unpack _). vm_compute. exact I. }
    destruct (shard_module_skips_aliases_within_module env_agree (plan_of ["encoder.weight"])
                0 None 0 tied_world _ [("", 0)] [("decoder", 2)] "encoder" 1 tied_layer
                eq_refl eq_refl eq_refl Hnd)
      as (m' & Hm' & H).
    injection Hm' as <-.
    destruct (H 0 "weight" shared_param eq_refl eq_refl) as [_ Hfirst].
    destruct Hfirst as (st & Hst & Hw).
    + apply not_elem_of_nil.
    + intros prefix0 id0 m0 Hel. apply elem_of_cons in Hel as [Heq|Hel].
      * injection Heq as -> ->. intros Hm0. injection Hm0 as <-. apply not_elem_of_nil.
      * by apply elem_of_nil in Hel.
    + injection Hst as <-. exact Hw.
Defined.

(** C1 as stated fails: the later reference to a parameter object sharded
    at its first name does not point at the sharded value; it still holds
    the dense parameter. *)
Lemma later_alias_keeps_dense_parameter :
  exists w' m',
    shard_module env_agree 0 (plan_of ["w1"]) 0 None alias_world = (inr tt, w')
    /\ held_ids alias_net ["w1"] = held_ids alias_net ["w2"]
    /\ modules w' !! 0 = Some m'
    /\ getattr m' "w1" = inr (VShardedTensor (mkShardedTensor chunk0 dense_4_8))
    /\ getattr m' "w2" = inr (VTensor dense_4_8)
    /\ ~ share_sharded_value w' 0 "w1" 0 "w2".
Proof.
  eexists _, _. split; [reflexivity|]. split; [reflexivity|]. split; [reflexivity|].
  split; [reflexivity|]. split; [reflexivity|].
  intros (m1 & m2 & st & Hm1 & Hm2 & H1 & H2).
  injection Hm2 as <-. discriminate H2.
Qed.

(** The set [memo] is created anew for every module: a parameter object
    held by two modules is sharded at both. *)
Lemma tied_parameter_is_sharded_twice :
  exists w',
    shard_module env_agree 0 (plan_of ["encoder.weight"; "decoder.weight"]) 0 None tied_world
      = (inr tt, w')
    /\ calls w' =
         [CallAllGather (Group 0) (0%Z, chunk0); CallShard chunk0 dense_4_8 0 None;
          CallAllGather (Group 0) (0%Z, chunk0); CallShard chunk0 dense_4_8 0 None].
Proof. eexists. split; reflexivity. Qed.

(** C5, as the code has it.  In a run of [shard_module] that completes:
    modules that are not enumerated are untouched; and in every
    enumerated module, a parameter whose object is not held under an
    earlier key of the module is replaced by the value the plan's
    specification for its qualified name builds from it when that name
    (path of the module, a dot unless the path is empty, local name) is a
    key of the plan, and every other attribute is left as it was: a
    parameter the plan does not name, a parameter whose object is held
    under an earlier key of the module, an absent parameter, a
    sub-module, a plain attribute. *)
Theorem shard_module_shards_planned_parameters
    (E : Collaborators) (p : ShardingPlan) (src_rank : Z)
    (process_group : option ProcessGroup) (root : nat) (w w' : world) :
  shard_module E root p src_rank process_group w = (inr tt, w') ->
  (forall id, id ∉ (named_modules (modules w) root).*2 ->
     modules w' !! id = modules w !! id)
  /\ (forall mod_prefix mod_ m,
       (mod_prefix, mod_) ∈ named_modules (modules w) root ->
       modules w !! mod_ = Some m ->
       NoDup (attrs m).*1 ->
       exists m', modules w' !! mod_ = Some m' /\
         forall k,
           match attr_lookup m k with
           | Some (MParam (Some param)) =>
               exists i, (_parameters m).*1 !! i = Some k /\
                 (param_id param ∈ held_ids m (take i (_parameters m).*1) ->
                    attr_lookup m' k = Some (MParam (Some param)))
                 /\ (param_id param ∉ held_ids m (take i (_parameters m).*1) ->
                    match plan p !! join_prefix mod_prefix k with
                    | Some spec =>
                        exists st,
                          spec_shard E spec (param_data param) src_rank process_group
                            = inr st
                          /\ attr_lookup m' k = Some (MPlain (VShardedTensor st))
                    | None => attr_lookup m' k = Some (MParam (Some param))
                    end)
           | other => attr_lookup m' k = other
           end).
Proof.
  intros Hrun. apply shard_module_visited in Hrun as [Hout Hvis]. split; [exact Hout|].
  intros mod_prefix mod_ m Hin Hm Hnd.
  destruct (Hvis _ _ Hin) as (m0 & m' & Hm0 & Hm' & _ & _ & Hfr & Hpar).
  rewrite Hm in Hm0. injection Hm0 as <-.
  exists m'. split; [done|]. intros k.
  assert (Hother : (forall v, attr_lookup m k <> Some (MParam v)) ->
                   attr_lookup m' k = attr_lookup m k).
  { intros Hno. apply Hfr. intros Hk.
    destruct (parameters_lookup _ _ Hnd Hk) as [v Hv]. by apply (Hno v). }
  destruct (attr_lookup m k) as [[[param|]| |]|] eqn:Hk; try (by apply Hother).
  - pose proof (parameters_elem_of _ _ _ Hk) as Hkey.
    apply list_elem_of_lookup_1 in Hkey as [i Hi]. exists i. split; [done|].
    destruct (Hpar Hnd i k Hi) as (v & Hv & Hov).
    rewrite Hk in Hv. injection Hv as <-. destruct Hov as [Hseen Hfresh]. split.
    + intros Hheld. apply Hseen. by right.
    + intros Hheld. apply Hfresh. intros [Hmemo|?]; [|done]. set_solver.
  - pose proof (parameters_elem_of _ _ _ Hk) as Hkey.
    apply list_elem_of_lookup_1 in Hkey as [i Hi].
    destruct (Hpar Hnd i k Hi) as (v & Hv & Hov).
    rewrite Hk in Hv. by injection Hv as <-.
Qed.

Lemma shard_module_shards_planned_parameters_witness :
  (exists w' m1 m2,
    shard_module env_agree 0 (plan_of ["linear.weight"]) 0 None two_layer_world = (inr tt, w')
    /\ modules w' !! 1 = Some m1 /\ modules w' !! 2 = Some m2
    /\ attr_lookup m1 "weight" =
         Some (MPlain (VShardedTensor (mkShardedTensor chunk0 dense_4_8)))
    /\ attr_lookup m1 "bias" = Some (MParam (Some linear_bias))
    /\ attr_lookup m2 "weight" = Some (MParam (Some out_weight))
    /\ attr_lookup m2 "bias" = Some (MParam None))
  /\ (exists w' m',
    shard_module env_agree 0 (plan_of ["w1"; "w2"]) 0 None alias_world = (inr tt, w')
    /\ modules w' !! 0 = Some m'
    /\ attr_lookup m' "w1" =
         Some (MPlain (VShardedTensor (mkShardedTensor chunk0 dense_4_8)))
    /\ attr_lookup m' "w2" = Some (MParam (Some shared_param))).
Proof.
  assert (Hwf : forall l : list (string * member),
             bool_decide (NoDup l.*1) = true -> NoDup l.*1).
  { intros l H. by apply bool_decide_eq_true in H. }
  split.
  - eexists _, _, _. split; [reflexivity|]. split; [reflexivity|]. split; [reflexivity|].
    destruct (shard_module_shards_planned_parameters env_agree (plan_of ["linear.weight"])
                0 None 0 two_layer_world _ eq_refl) as [_ H].
    assert (Hin1 : ("linear", 1) ∈ named_modules (modules two_layer_world) 0).
    { apply elem_of_cons. right. apply elem_of_cons. by left. }
    assert (Hin2 : ("out", 2) ∈ named_modules (modules two_layer_world) 0).
    { apply elem_of_cons. right. apply elem_of_cons. right. apply elem_of_cons. by left. }
    destruct (H "linear" 1 linear_layer Hin1 eq_refl (Hwf (attrs linear_layer) eq_refl)) as (m1 & Hm1 & Hk1).
    destruct (H "out" 2 out_layer Hin2 eq_refl (Hwf (attrs out_layer) eq_refl)) as (m2 & Hm2 & Hk2).
    injection Hm1 as <-. injection Hm2 as <-.
    split_and!.
    + destruct (Hk1 "weight") as (i & Hi & _ & Hfirst).
      destruct i as [|[|[|i]]]; try discriminate Hi.
      destruct Hfirst as (st & Hst & Hw); [apply not_elem_of_nil|].
      injection Hst as <-. exact Hw.
    + destruct (Hk1 "bias") as (i & Hi & _ & Hfirst).
      destruct i as [|[|[|i]]]; try discriminate Hi.
      apply Hfirst. intros Hel. apply elem_of_cons in Hel as [Heq|Hel].
      * discriminate Heq.
      * by apply elem_of_nil in Hel.
    + destruct (Hk2 "weight") as (i & Hi & _ & Hfirst).
      destruct i as [|[|[|i]]]; try discriminate Hi.
      apply Hfirst. apply not_elem_of_nil.
    + exact (Hk2 "bias").
  - eexists _, _. split; [reflexivity|]. split; [reflexivity|].
    destruct (shard_module_shards_planned_parameters env_agree (plan_of ["w1"; "w2"])
                0 None 0 alias_world _ eq_refl) as [_ H].
    assert (Hin : ("", 0) ∈ named_modules (modules alias_world) 0).
    { apply elem_of_cons. by left. }
    destruct (H "" 0 alias_net Hin eq_refl (Hwf (attrs alias_net) eq_refl)) as (m' & Hm' & Hk).
    injection Hm' as <-. split.
    + destruct (Hk "w1") as (i & Hi & _ & Hfirst).
      destruct i as [|[|[|i]]]; try discriminate Hi.
      destruct Hfirst as (st & Hst & Hw); [apply not_elem_of_nil|].
      injection Hst as <-. exact Hw.
    + destruct (Hk "w2") as (i & Hi & Hskip & _).
      destruct i as [|[|[|i]]]; try discriminate Hi.
      apply Hskip. apply elem_of_cons. by left.
Defined.

(** C5 as stated fails: a parameter whose qualified name is a key of the
    plan is not sharded when its object is also held under an earlier key
    of its module. *)
Lemma planned_alias_is_not_sharded :
  exists w' m',
    shard_module env_agree 0 (plan_of ["w2"]) 0 None alias_world = (inr tt, w')
    /\ is_Some (plan (plan_of ["w2"]) !! join_prefix "" "w2")
    /\ attr_lookup alias_net "w2" = Some (MParam (Some shared_param))
    /\ modules w' !! 0 = Some m'
    /\ attr_lookup m' "w2" = Some (MParam (Some shared_param))
    /\ calls w' = [].
Proof.
  eexists _, _. split; [reflexivity|]. split; [by eexists|].
  split; [reflexivity|]. split; [reflexivity|]. split; reflexivity.
Qed.



(** ** The enumeration is not disturbed by the loop

    [named_modules()] is a generator that [shard_module] consumes while
    its loop body mutates the modules.  The body never changes a
    sub-module table, so the enumeration computed before the loop is the
    one the generator produces. *)

Section EnumerationStable.

Variable E : Collaborators.
Variable p : ShardingPlan.
Variable src_rank : Z.
Variable process_group : option ProcessGroup.

Lemma bind_inv {A B} (c : M A) (k : A -> M B) w r w' :
  bind c k w = (r, w') ->
  (exists e, c w = (inl e, w') /\ r = inl e)
  \/ (exists a w1, c w = (inr a, w1) /\ k a w1 = (r, w')).
Proof.
  unfold bind. destruct (c w) as [[e|a] w1].
  - intros [= <- <-]. left. eauto.
  - intros H. right. eauto.
Qed.

Lemma alist_delete_absent {A} (l : list (string * A)) k :
  k ∉ l.*1 -> alist_delete k l = l.
Proof.
  induction l as [|[k' a] l IH]; simpl; [done|].
  intros [Hne Hl]%not_elem_of_cons. rewrite decide_False by done. by rewrite IH.
Qed.

Lemma alist_delete_NoDup {A} (l : list (string * A)) k :
  NoDup l.*1 -> NoDup (alist_delete k l).*1.
Proof.
  induction l as [|[k' a] l IH]; simpl; [done|].
  intros [Hk Hl]%NoDup_cons. destruct (decide (k' = k)); [auto|].
  simpl. constructor; [|auto]. intros Hin. apply Hk.
  clear -Hin. induction l as [|[k1 a1] l IH]; simpl in *; [done|].
  destruct (decide (k1 = k)); simpl in *.
  - apply elem_of_cons. right. auto.
  - apply elem_of_cons in Hin as [->|Hin]; apply elem_of_cons; auto.
Qed.

Lemma replaced_NoDup m name st :
  NoDup (attrs m).*1 -> NoDup (attrs (replaced m name st)).*1.
Proof.
  intros Hnd. unfold replaced. simpl.
  rewrite alist_set_absent by apply alist_delete_keys.
  rewrite fmap_app. apply NoDup_app. split_and!.
  - by apply alist_delete_NoDup.
  - intros k Hk [->|Hin]%elem_of_cons.
    + by apply alist_delete_keys in Hk.
    + by apply elem_of_nil in Hin.
  - simpl. apply NoDup_singleton.
Qed.

Lemma replaced_modules m name st x :
  NoDup (attrs m).*1 -> attr_lookup m name = Some x ->
  (forall c, x <> MModule c) ->
  _modules (replaced m name st) = _modules m.
Proof.
  unfold _modules, replaced, attr_lookup. simpl. intros Hnd Hx Hnot.
  rewrite alist_set_absent by apply alist_delete_keys.
  rewrite omap_app. simpl. rewrite app_nil_r.
  revert Hnd Hx. generalize (attrs m) as l.
  induction l as [|[k' x'] l IH]; simpl; [done|].
  intros [Hk Hl]%NoDup_cons. destruct (decide (k' = name)) as [->|Hne].
  - intros [= ->]. rewrite alist_delete_absent by done.
    destruct x; try done. by destruct (Hnot c).
  - intros Hx. cbn [omap list_omap]. rewrite (IH Hl Hx). done.
Qed.

Lemma same_children_insert ms id m m' :
  ms !! id = Some m -> _modules m' = _modules m ->
  same_children (<[id := m']> ms) ms.
Proof.
  intros Hm Heq id'. destruct (decide (id = id')) as [<-|Hne].
  - rewrite lookup_insert_eq, Hm. simpl. by rewrite Heq.
  - by rewrite lookup_insert_ne.
Qed.

Lemma heap_wf_insert ms id m :
  heap_wf ms -> NoDup (attrs m).*1 -> heap_wf (<[id := m]> ms).
Proof.
  intros Hwf Hnd id' m'. destruct (decide (id = id')) as [<-|Hne].
  - rewrite lookup_insert_eq. by intros [= <-].
  - rewrite lookup_insert_ne by done. apply Hwf.
Qed.

Lemma same_children_trans ms1 ms2 ms3 :
  same_children ms1 ms2 -> same_children ms2 ms3 -> same_children ms1 ms3.
Proof. intros H1 H2 id. by rewrite H1. Qed.

Lemma shard_parameter_children module name spec w r w' :
  heap_wf (modules w) ->
  shard_parameter E module name spec src_rank process_group w = (r, w') ->
  heap_wf (modules w') /\ same_children (modules w') (modules w).
Proof.
  intros Hwf. rewrite shard_parameter_unfold.
  destruct (modules w !! module) as [m|] eqn:Hm; [|by intros [= _ <-]].
  destruct (getattr m name) as [e'|v] eqn:Hget; [by intros [= _ <-]|].
  destruct v as [|t|st|pt|c|n]; try by intros [= _ <-].
  destruct (contiguous t); [|by intros [= _ <-]].
  destruct (_shard_tensor E t spec src_rank process_group w) as [[e'|st] w1] eqn:Hst.
  - intros [= _ <-]. by apply shard_tensor_frame in Hst as [-> _].
  - intros [= _ <-]. apply shard_tensor_frame in Hst as [Hms _]. simpl. rewrite Hms.
    unfold getattr in Hget. destruct (attr_lookup m name) as [x|] eqn:Hx; [|done].
    split.
    + apply heap_wf_insert; [done|]. apply replaced_NoDup. by eapply Hwf.
    + apply (same_children_insert _ _ m); [done|].
      apply (replaced_modules _ _ _ x); [by eapply Hwf|done|].
      intros c ->. by destruct c.
Qed.

Lemma shard_module_params_children mod_ mod_prefix keys memo w r w' :
  heap_wf (modules w) ->
  shard_module_params E mod_ mod_prefix p src_rank process_group keys memo w = (r, w') ->
  heap_wf (modules w') /\ same_children (modules w') (modules w).
Proof.
  revert memo w. induction keys as [|k rest IH]; intros memo w Hwf; simpl.
  - by intros [= _ <-].
  - intros [(e & Hg & _)|(m & w1 & Hg & Hrun)]%bind_inv.
    { unfold get_module in Hg. destruct (modules w !! mod_); by injection Hg as _ <-. }
    assert (w1 = w) as ->.
    { unfold get_module in Hg. destruct (modules w !! mod_); by injection Hg as _ <-. }
    apply bind_inv in Hrun as [(e & Hl & _)|(v & w1 & Hl & Hrun)].
    { by injection Hl as _ <-. }
    injection Hl as _ <-. destruct v as [param|]; [|by eapply IH].
    destruct (decide (param_id param ∈ memo)); [by eapply IH|].
    apply bind_inv in Hrun as [(e & Hs & _)|([] & w1 & Hs & Hrun)].
    + destruct (plan p !! join_prefix mod_prefix k).
      * by apply shard_parameter_children in Hs.
      * done.
    + assert (heap_wf (modules w1) /\ same_children (modules w1) (modules w)) as [Hwf1 Hsc1].
      { destruct (plan p !! join_prefix mod_prefix k).
        - by apply shard_parameter_children in Hs.
        - by injection Hs as <-. }
      apply IH in Hrun as [Hwf' Hsc']; [|done].
      split; [done|]. by eapply same_children_trans.
Qed.

Lemma py_register_forward_hook_children mod_ h w r w' :
  heap_wf (modules w) ->
  py_register_forward_hook mod_ h w = (r, w') ->
  heap_wf (modules w') /\ same_children (modules w') (modules w).
Proof.
  intros Hwf. unfold py_register_forward_hook, bind, get_module, put_module.
  destruct (modules w !! mod_) as [m|] eqn:Hm; [|by intros [= _ <-]].
  intros [= _ <-]. simpl. split.
  - apply heap_wf_insert; [done|]. simpl. by eapply Hwf.
  - by apply (same_children_insert _ _ m).
Qed.

Lemma shard_module_visit_children mod_prefix mod_ w r w' :
  heap_wf (modules w) ->
  shard_module_visit E p src_rank process_group mod_prefix mod_ w = (r, w') ->
  heap_wf (modules w') /\ same_children (modules w') (modules w).
Proof.
  intros Hwf. unfold shard_module_visit.
  intros [(e & Hg & _)|(m & w1 & Hg & Hrun)]%bind_inv.
  { unfold get_module in Hg. destruct (modules w !! mod_); by injection Hg as _ <-. }
  assert (w1 = w) as ->.
  { unfold get_module in Hg. destruct (modules w !! mod_); by injection Hg as _ <-. }
  apply bind_inv in Hrun as [(e & Hp & _)|([] & w1 & Hp & Hrun)].
  { by apply shard_module_params_children in Hp. }
  apply shard_module_params_children in Hp as [Hwf1 Hsc1]; [|done].
  assert (Hreg : forall (c : M nat) w0 r0 w0',
    (forall r1 w1', c w0 = (r1, w1') ->
       heap_wf (modules w1') /\ same_children (modules w1') (modules w0)) ->
    (c;; ret tt) w0 = (r0, w0') ->
    heap_wf (modules w0') /\ same_children (modules w0') (modules w0)).
  { intros c w0 r0 w0' Hc [(e & Hs & _)|(a & w2 & Hs & Hr)]%bind_inv.
    - by eapply Hc.
    - injection Hr as _ <-. by eapply Hc. }
  apply bind_inv in Hrun as [(e & Hs & _)|([] & w2 & Hs & Hrun)].
  - assert (heap_wf (modules w') /\ same_children (modules w') (modules w1)) as [? ?].
    { destruct (output_plan p) as [op|]; [destruct (op !! mod_prefix)|]; try done.
      eapply Hreg; [|exact Hs]. intros r1 w1' Hc. unfold _reshard_output in Hc.
      apply bind_inv in Hc as [(e1 & Hc & _)|(a & w3 & Hc & Hr)].
      - by apply py_register_forward_hook_children in Hc.
      - injection Hr as _ <-. by apply py_register_forward_hook_children in Hc. }
    split; [done|]. by eapply same_children_trans.
  - assert (heap_wf (modules w2) /\ same_children (modules w2) (modules w1)) as [Hwf2 Hsc2].
    { destruct (output_plan p) as [op|]; [destruct (op !! mod_prefix)|];
        try (by injection Hs as <-).
      eapply Hreg; [|exact Hs]. intros r1 w1' Hc. unfold _reshard_output in Hc.
      apply bind_inv in Hc as [(e1 & Hc & _)|(a & w3 & Hc & Hr)].
      - by apply py_register_forward_hook_children in Hc.
      - injection Hr as _ <-. by apply py_register_forward_hook_children in Hc. }
    assert (heap_wf (modules w') /\ same_children (modules w') (modules w2)) as [? ?].
    { destruct (return_local_tensor p) as [names|];
        [destruct (decide (mod_prefix ∈ names))|]; try (by injection Hrun as _ <-).
      eapply Hreg; [|exact Hrun]. intros r1 w1' Hc. unfold _collect_local_shard in Hc.
      apply bind_inv in Hc as [(e1 & Hc & _)|(a & w3 & Hc & Hr)].
      - by apply py_register_forward_hook_children in Hc.
      - injection Hr as _ <-. by apply py_register_forward_hook_children in Hc. }
    split; [done|]. eapply same_children_trans; [done|]. by eapply same_children_trans.
Qed.

Lemma named_modules_children_ext visit1 visit2 prefix children memo :
  (forall memo prefix c, visit1 memo prefix c = visit2 memo prefix c) ->
  named_modules_children visit1 prefix children memo =
  named_modules_children visit2 prefix children memo.
Proof.
  intros Hext. revert memo.
  induction children as [|[name [c|]] rest IH]; intros memo; simpl; [done| |done].
  rewrite Hext. destruct (visit2 memo (join_prefix prefix name) c) as [[l1 memo1]|]; [|done].
  by rewrite IH.
Qed.

Lemma named_modules_aux_ext fuel ms1 ms2 memo prefix self :
  same_children ms1 ms2 ->
  named_modules_aux fuel ms1 memo prefix self = named_modules_aux fuel ms2 memo prefix self.
Proof.
  intros Hsc. revert memo prefix self.
  induction fuel as [|fuel IH]; intros memo prefix self; simpl; [done|].
  destruct (decide (self ∈ memo)); [done|].
  assert (from_option _modules [] (ms1 !! self) = from_option _modules [] (ms2 !! self))
    as ->.
  { specialize (Hsc self). by destruct (ms1 !! self), (ms2 !! self); simplify_eq/=. }
  by rewrite (named_modules_children_ext _ (named_modules_aux fuel ms2)).
Qed.

Lemma named_modules_ext ms1 ms2 root :
  same_children ms1 ms2 -> named_modules ms1 root = named_modules ms2 root.
Proof.
  intros Hsc. unfold named_modules.
  assert (size ms1 = size ms2) as ->.
  { rewrite <- !size_dom. f_equal. apply set_eq. intros id.
    rewrite !elem_of_dom. specialize (Hsc id).
    destruct (ms1 !! id), (ms2 !! id); simplify_eq/=; split; intros [? ?]; eauto; done. }
  by rewrite (named_modules_aux_ext _ ms1 ms2).
Qed.

(** After any number of iterations of the loop over the modules, the
    enumeration of the tree is what it was before the loop. *)
Lemma shard_module_loop_enumeration l root w r w' :
  heap_wf (modules w) ->
  shard_module_loop E p src_rank process_group l w = (r, w') ->
  heap_wf (modules w') /\ named_modules (modules w') root = named_modules (modules w) root.
Proof.
  intros Hwf Hrun.
  assert (heap_wf (modules w') /\ same_children (modules w') (modules w)) as [? ?].
  { revert w Hwf Hrun. induction l as [|[prefix0 id0] rest IH]; intros w Hwf; simpl.
    - by intros [= _ <-].
    - intros [(e & Hv & _)|([] & w1 & Hv & Hrun)]%bind_inv.
      + by apply shard_module_visit_children in Hv.
      + apply shard_module_visit_children in Hv as [Hwf1 Hsc1]; [|done].
        apply IH in Hrun as [Hwf' Hsc']; [|done].
        split; [done|]. by eapply same_children_trans. }
  split; [done|]. by apply named_modules_ext.
Qed.

End EnumerationStable.

(** A module object registered under two names is enumerated once, under
    the first; a plan entry under the second name is never looked up. *)
Lemma shared_module_is_visited_once :
  named_modules (modules shared_world) 0 = [("", 0); ("a", 1)]
  /\ (exists w', shard_module env_agree 0 (plan_of ["a.weight"]) 0 None shared_world
                   = (inr tt, w')
        /\ calls w' = [CallAllGather (Group 0) (0%Z, chunk0);
                       CallShard chunk0 dense_4_8 0 None])
  /\ (exists w', shard_module env_agree 0 (plan_of ["b.weight"]) 0 None shared_world
                   = (inr tt, w')
        /\ modules w' = modules shared_world /\ calls w' = []).
Proof.
  split; [reflexivity|]. split.
  - eexists. split; reflexivity.
  - eexists. split; [reflexivity|]. split; reflexivity.
Qed.

(** * Further properties of the code *)

(** ** [_shard_tensor] *)

Section ShardTensorMore.

Variable E : Collaborators.

(** [_shard_tensor] on a contiguous tensor, in terms of the check of the
    gathered list. *)
Lemma shard_tensor_run tensor spec src_rank process_group w :
  contiguous tensor = true ->
  let pg := resolve_group E process_group in
  let gathered := record_call (CallAllGather pg (src_rank, spec)) w in
  _shard_tensor E tensor spec src_rank process_group w =
  match check_gathered src_rank spec (get_rank E pg) 0
          ((fun i => if decide (i = get_rank E pg) then (src_rank, spec)
                     else peer_object E (collectives (calls w)) pg i)
             <$> seq 0 (get_world_size E pg)) with
  | inl e => (inl e, gathered)
  | inr _ => (spec_shard E spec tensor src_rank process_group,
              record_call (CallShard spec tensor src_rank process_group) gathered)
  end.
Proof.
  intros Hc pg gathered. unfold _shard_tensor. rewrite Hc. simpl.
  unfold bind, all_gather_object, lift, call_spec_shard, ret. simpl. fold pg.
  destruct (check_gathered _ _ _ _ _); [done|].
  by destruct (spec_shard E _ _ _ _).
Qed.

Lemma check_gathered_classify src_rank spec current_rank idx l e :
  check_gathered src_rank spec current_rank idx l = inl e ->
  classify e = InconsistentConfiguration.
Proof.
  intros (i & r' & s' & _ & _ & ->)%check_gathered_inl.
  by destruct (decide (src_rank <> r')).
Qed.

(** The loop stops at the first entry that differs. *)
Lemma check_gathered_first src_rank spec current_rank idx l e :
  check_gathered src_rank spec current_rank idx l = inl e ->
  exists i r' s',
    l !! i = Some (r', s') /\ (r', s') <> (src_rank, spec)
    /\ (forall j, j < i -> l !! j = Some (src_rank, spec))
    /\ e = ValueError
             (if decide (src_rank <> r')
              then MsgSrcRankMismatch src_rank current_rank r' (idx + i)
              else MsgShardingSpecMismatch spec current_rank s' (idx + i)).
Proof.
  revert idx. induction l as [|[r' s'] l IH]; intros idx; simpl; [done|].
  destruct (decide (src_rank <> r')) as [Hr|Hr].
  - intros [= <-]. exists 0, r', s'. rewrite Nat.add_0_r, decide_True by done.
    split_and!; [done| |intros j Hj; lia|done]. intros [= -> ->]. done.
  - destruct (decide (spec <> s')) as [Hs|Hs].
    + intros [= <-]. exists 0, r', s'. rewrite Nat.add_0_r, decide_False by done.
      split_and!; [done| |intros j Hj; lia|done]. intros [= -> ->]. done.
    + intros H. apply IH in H as (i & r1 & s1 & Hi & Hne & Hbefore & ->).
      apply dec_stable in Hr as <-. apply dec_stable in Hs as <-.
      exists (S i), r1, s1. rewrite <- Nat.add_succ_comm.
      split_and!; try done. intros [|j] Hj; [done|]. simpl. apply Hbefore. lia.
Qed.

End ShardTensorMore.

(** X1. Whatever [_shard_tensor] returns or raises, it leaves the modules
    and the process-group override alone.  A tensor that is not
    contiguous is rejected with the invalid-input [ValueError] before the
    process takes part in any collective; on a contiguous tensor the
    process takes part in exactly one all-gather, followed either by the
    mismatch error or by exactly one call of the specification's
    [shard], whose outcome is the outcome of the operation. *)
Theorem shard_tensor_footprint
    (E : Collaborators) (tensor : Tensor) (spec : ShardingSpec) (src_rank : Z)
    (process_group : option ProcessGroup) (w w' : world) (res : exn + ShardedTensor) :
  _shard_tensor E tensor spec src_rank process_group w = (res, w') ->
  modules w' = modules w
  /\ _CURRENT_PROCESS_GROUP w' = _CURRENT_PROCESS_GROUP w
  /\ (contiguous tensor = false ->
        res = inl (ValueError MsgInputNotContiguous) /\ w' = w)
  /\ (contiguous tensor = true ->
        let pg := resolve_group E process_group in
        (calls w' = (calls w ++ [CallAllGather pg (src_rank, spec)])%list
         /\ exists e, res = inl e /\ classify e = InconsistentConfiguration)
        \/ (calls w' = (calls w ++ [CallAllGather pg (src_rank, spec);
                                    CallShard spec tensor src_rank process_group])%list
            /\ res = spec_shard E spec tensor src_rank process_group)).
Proof.
  intros Hrun. pose proof (shard_tensor_frame _ _ _ _ _ _ _ _ Hrun) as [Hms Hcur].
  split; [done|]. split; [done|]. split.
  - intros Hc. revert Hrun. unfold _shard_tensor. rewrite Hc. simpl.
    by intros [= <- <-].
  - intros Hc pg. rewrite (shard_tensor_run E _ _ _ _ _ Hc) in Hrun. fold pg in Hrun.
    destruct (check_gathered _ _ _ _ _) as [e|[]] eqn:Hchk.
    + injection Hrun as <- <-. left. split; [done|]. exists e. split; [done|].
      by eapply check_gathered_classify.
    + injection Hrun as <- <-. right. split; [|done]. simpl.
      by rewrite <- app_assoc.
Qed.

Lemma shard_tensor_footprint_witness :
  _shard_tensor env_agree strided_4_8 chunk0 0 None empty_world =
    (inl (ValueError MsgInputNotContiguous), empty_world).
Proof.
  destruct (shard_tensor_footprint env_agree strided_4_8 chunk0 0 None empty_world
              _ _ eq_refl) as (_ & _ & H & _).
  destruct (H eq_refl) as [_ _]. reflexivity.
Defined.

(** X2. When the pairs differ, the error names the lowest-ranked process
    whose pair differs from the own one; for that process a different
    source rank is reported in preference to a different
    specification. *)
Theorem shard_tensor_reports_first_mismatch
    (E : Collaborators) (tensor : Tensor) (spec : ShardingSpec) (src_rank : Z)
    (process_group : option ProcessGroup) (w w' : world) (e : exn) :
  contiguous tensor = true ->
  _shard_tensor E tensor spec src_rank process_group w = (inl e, w') ->
  peers_agree E w process_group src_rank spec
  \/ (let pg := resolve_group E process_group in
      exists idx r' s',
        idx < get_world_size E pg /\ idx <> get_rank E pg
        /\ peer_object E (collectives (calls w)) pg idx = (r', s')
        /\ (r', s') <> (src_rank, spec)
        /\ (forall j, j < idx -> j <> get_rank E pg ->
              peer_object E (collectives (calls w)) pg j = (src_rank, spec))
        /\ e = ValueError
                 (if decide (src_rank <> r')
                  then MsgSrcRankMismatch src_rank (get_rank E pg) r' idx
                  else MsgShardingSpecMismatch spec (get_rank E pg) s' idx)).
Proof.
  intros Hc Hrun. rewrite (shard_tensor_run E _ _ _ _ _ Hc) in Hrun.
  set (pg := resolve_group E process_group) in *.
  destruct (check_gathered _ _ _ _ _) as [e'|[]] eqn:Hchk.
  - right. injection Hrun as <- _.
    apply check_gathered_first in Hchk as (i & r' & s' & Hi & Hne & Hbefore & ->).
    rewrite list_lookup_fmap in Hi.
    destruct (seq 0 (get_world_size E pg) !! i) as [j|] eqn:Hj; [|done].
    apply lookup_seq in Hj as [-> Hlt]. simpl in Hi.
    destruct (decide (i = get_rank E pg)) as [Heq|Hrank].
    { injection Hi as <- <-. done. }
    exists i, r', s'. split_and!; try done.
    + by injection Hi.
    + intros j Hj Hjr. specialize (Hbefore j Hj).
      rewrite list_lookup_fmap, lookup_seq_lt in Hbefore by lia. simpl in Hbefore.
      rewrite decide_False in Hbefore by done. by injection Hbefore.
  - left. apply (gathered_agree E). apply check_gathered_inr in Hchk. exact Hchk.
Qed.

Lemma shard_tensor_reports_first_mismatch_witness :
  _shard_tensor env_three dense_4_8 chunk0 0 None empty_world =
    (inl (ValueError (MsgShardingSpecMismatch chunk0 0 chunk1 1)),
     mkWorld ∅ None [CallAllGather (Group 0) (0%Z, chunk0)])
  /\ exists idx r' s',
      peer_object env_three 0 (Group 0) idx = (r', s')
      /\ (forall j, j < idx -> j <> 0 -> peer_object env_three 0 (Group 0) j = (0%Z, chunk0))
      /\ ValueError (MsgShardingSpecMismatch chunk0 0 chunk1 1) =
           ValueError (if decide (0%Z <> r')
                       then MsgSrcRankMismatch 0 0 r' idx
                       else MsgShardingSpecMismatch chunk0 0 s' idx).
Proof.
  split; [reflexivity|].
  destruct (shard_tensor_reports_first_mismatch env_three dense_4_8 chunk0 0 None
              empty_world (mkWorld ∅ None [CallAllGather (Group 0) (0%Z, chunk0)])
              (ValueError (MsgShardingSpecMismatch chunk0 0 chunk1 1)) eq_refl eq_refl)
    as [Hyes|(idx & r' & s' & _ & _ & Hp & _ & Hb & He)].
  - specialize (Hyes 1). simpl in Hyes. discriminate Hyes; lia.
  - exists idx, r', s'. split; [exact Hp|]. split; [exact Hb|exact He].
Defined.

(** ** [shard_parameter] *)

(** X3. [shard_parameter] returns exactly when the module has under the
    name a contiguous tensor, every other process passed the same source
    rank and specification, and the specification's [shard] succeeds on
    that tensor. *)
Theorem shard_parameter_succeeds_iff
    (E : Collaborators) (module : nat) (name : string) (spec : ShardingSpec)
    (src_rank : Z) (process_group : option ProcessGroup) (w : world) (m : NNModule) :
  modules w !! module = Some m ->
  ((exists w', shard_parameter E module name spec src_rank process_group w = (inr tt, w'))
   <-> exists t st,
         getattr m name = inr (VTensor t) /\ contiguous t = true
         /\ peers_agree E w process_group src_rank spec
         /\ spec_shard E spec t src_rank process_group = inr st).
Proof.
  intros Hm. rewrite shard_parameter_unfold, Hm. split.
  - intros [w' Hrun]. destruct (getattr m name) as [e|v]; [done|].
    destruct v as [|t|st|pt|c|n]; try done.
    destruct (contiguous t) eqn:Hc; [|done]. exists t.
    rewrite (shard_tensor_run E _ _ _ _ _ Hc) in Hrun.
    destruct (check_gathered _ _ _ _ _) as [e|[]] eqn:Hchk; [done|].
    destruct (spec_shard E spec t src_rank process_group) as [e|st] eqn:Hsh; [done|].
    exists st. split_and!; try done.
    apply (gathered_agree E). by apply check_gathered_inr in Hchk.
  - intros (t & st & -> & Hc & Hag & Hsh). rewrite Hc.
    rewrite (shard_tensor_run E _ _ _ _ _ Hc).
    apply (gathered_agree E) in Hag.
    apply (check_gathered_inr _ _ (get_rank E (resolve_group E process_group)) 0) in Hag.
    cbv zeta. rewrite Hag, Hsh. eauto.
Qed.

Lemma shard_parameter_succeeds_iff_witness :
  (exists w', shard_parameter env_agree 0 "w" chunk0 0 None net_world = (inr tt, w'))
  /\ ~ (exists w', shard_parameter env_other_spec 0 "w" chunk0 0 None net_world = (inr tt, w')).
Proof.
  split.
  - apply (shard_parameter_succeeds_iff env_agree 0 "w" chunk0 0 None net_world net eq_refl).
    exists dense_4_8, (mkShardedTensor chunk0 dense_4_8).
    split; [reflexivity|]. split; [reflexivity|]. split; [|reflexivity].
    intros i _ _. reflexivity.
  - intros H.
    apply (shard_parameter_succeeds_iff env_other_spec 0 "w" chunk0 0 None net_world net
             eq_refl) in H as (t & st & _ & _ & Hag & _).
    specialize (Hag 1). simpl in Hag. discriminate Hag; lia.
Defined.

(** X4. A run of [shard_parameter] that returns has changed nothing but
    the named attribute of the given module: every other attribute of
    the module, its type and its forward hooks, every other module and
    the process-group override are as before. *)
Theorem shard_parameter_frame
    (E : Collaborators) (module : nat) (name : string) (spec : ShardingSpec)
    (src_rank : Z) (process_group : option ProcessGroup) (w w' : world) :
  shard_parameter E module name spec src_rank process_group w = (inr tt, w') ->
  _CURRENT_PROCESS_GROUP w' = _CURRENT_PROCESS_GROUP w
  /\ (forall id, id <> module -> modules w' !! id = modules w !! id)
  /\ exists m m',
      modules w !! module = Some m /\ modules w' !! module = Some m'
      /\ module_type m' = module_type m
      /\ _forward_hooks m' = _forward_hooks m
      /\ forall k, k <> name -> attr_lookup m' k = attr_lookup m k.
Proof.
  intros Hrun.
  apply shard_parameter_inr in Hrun as (m & t & st & w1 & Hm & Hget & Hc & Hst & Hsh & ->).
  apply shard_tensor_frame in Hst as [Hms Hcur]. split; [done|]. split.
  - intros id Hid. simpl. by rewrite lookup_insert_ne.
  - exists m, (replaced m name st). simpl. rewrite lookup_insert_eq.
    split_and!; try done. intros k Hk. by apply replaced_lookup_ne.
Qed.

Lemma shard_parameter_frame_witness :
  exists w' m',
    shard_parameter env_agree 0 "w" chunk0 0 None net_world = (inr tt, w')
    /\ modules w' !! 0 = Some m'
    /\ attr_lookup m' "strided" = attr_lookup net "strided"
    /\ attr_lookup m' "count" = attr_lookup net "count".
Proof.
  eexists _, _. split; [reflexivity|]. split; [reflexivity|].
  destruct (shard_parameter_frame env_agree 0 "w" chunk0 0 None net_world _ eq_refl)
    as (_ & _ & m & m' & Hm & Hm' & _ & _ & Hk).
  injection Hm as <-. injection Hm' as <-.
  split; apply Hk; discriminate.
Defined.

(** X5. The errors of [shard_parameter] are these and no others: the
    three precondition errors, raised with the state untouched; the
    mismatch error of the agreement check, raised after the all-gather;
    and whatever the specification's [shard] raises, after the
    all-gather and the call of [shard].  In particular the contiguity
    error of [_shard_tensor] itself is never raised through
    [shard_parameter], which checks contiguity before. *)
Theorem shard_parameter_errors
    (E : Collaborators) (module : nat) (name : string) (spec : ShardingSpec)
    (src_rank : Z) (process_group : option ProcessGroup) (w w' : world)
    (m : NNModule) (e : exn) :
  modules w !! module = Some m ->
  shard_parameter E module name spec src_rank process_group w = (inl e, w') ->
  let pg := resolve_group E process_group in
  (e = ValueError (MsgNoParameter module name) /\ hasattr m name = false /\ w' = w)
  \/ (exists v, getattr m name = inr v /\ is_tensor v = false /\ w' = w
        /\ e = ValueError (MsgNotATensor (module_type m) name (type_name (modules w) v)))
  \/ (exists t, getattr m name = inr (VTensor t) /\ contiguous t = false /\ w' = w
        /\ e = ValueError (MsgParamNotContiguous name))
  \/ (classify e = InconsistentConfiguration
      /\ ~ peers_agree E w process_group src_rank spec
      /\ w' = record_call (CallAllGather pg (src_rank, spec)) w)
  \/ (exists t, getattr m name = inr (VTensor t)
        /\ spec_shard E spec t src_rank process_group = inl e
        /\ w' = record_call (CallShard spec t src_rank process_group)
                  (record_call (CallAllGather pg (src_rank, spec)) w)).
Proof.
  intros Hm. rewrite shard_parameter_unfold, Hm. intros Hrun pg.
  unfold hasattr. destruct (getattr m name) as [e'|v] eqn:Hget.
  { injection Hrun as <- <-. by left. }
  destruct v as [|t|st|pt|c|n];
    try (injection Hrun as <- <-; right; left; eexists; by split_and!).
  destruct (contiguous t) eqn:Hc.
  2:{ injection Hrun as <- <-. right. right. left. exists t. by split_and!. }
  rewrite (shard_tensor_run E _ _ _ _ _ Hc) in Hrun. fold pg in Hrun.
  destruct (check_gathered _ _ _ _ _) as [e'|[]] eqn:Hchk.
  - injection Hrun as <- <-. right. right. right. left. split_and!.
    + by eapply check_gathered_classify.
    + intros Hag. apply (gathered_agree E) in Hag.
      apply (check_gathered_inr _ _ (get_rank E pg) 0) in Hag.
      fold pg in Hag. by rewrite Hchk in Hag.
    + done.
  - destruct (spec_shard E spec t src_rank process_group) as [e'|st] eqn:Hsh; [|done].
    injection Hrun as <- <-. right. right. right. right. exists t. by split_and!.
Qed.

Lemma shard_parameter_errors_witness :
  exists e w',
    shard_parameter env_other_rank 0 "w" chunk0 0 None net_world = (inl e, w')
    /\ calls w' = [CallAllGather (Group 0) (0%Z, chunk0)]
    /\ e <> ValueError MsgInputNotContiguous.
Proof.
  eexists _, _. split; [reflexivity|]. split; [reflexivity|].
  destruct (shard_parameter_errors env_other_rank 0 "w" chunk0 0 None net_world _ net _
              eq_refl eq_refl)
    as [(_ & H & _)|[(v & Hv & Hnt & _)|[(t & Ht & Hc & _)|[(Hk & _)|(t & _ & Hsh & _)]]]].
  - discriminate H.
  - injection Hv as <-. discriminate Hnt.
  - injection Ht as <-. discriminate Hc.
  - intros He. rewrite He in Hk. discriminate Hk.
  - discriminate Hsh.
Defined.

(** ** The forward hooks *)

Lemma run_forward_hooks_dense E hooks output :
  is_sharded_or_partial output = false ->
  run_forward_hooks E hooks output = inr output.
Proof.
  intros Hout. induction hooks as [|h hooks IH]; simpl; [done|].
  destruct h as [spec|]; simpl.
  - destruct output; try done; simpl; exact IH.
  - destruct output; try done; simpl; exact IH.
Qed.

(** X6. An output that is neither a sharded nor a partial tensor passes
    unchanged through any sequence of reshard and collapse hooks. *)
Theorem forward_hooks_transparent
    (E : Collaborators) (hooks : list hook) (output : value) :
  is_sharded_or_partial output = false ->
  run_forward_hooks E hooks output = inr output.
Proof. apply run_forward_hooks_dense. Qed.

Lemma forward_hooks_transparent_witness :
  run_forward_hooks env_agree [ReshardHook chunk1; CollectLocalShardHook; ReshardHook chunk0]
    (VTensor dense_4_8) = inr (VTensor dense_4_8).
Proof. apply (forward_hooks_transparent env_agree). reflexivity. Defined.

(** X7. Once the collapse hook has run on a sharded output, the hooks
    registered after it have no effect: the result of the forward
    computation is the result of the collapse hook. *)
Theorem collect_hook_absorbs_later_hooks
    (E : Collaborators) (st : ShardedTensor) (rest : list hook) :
  run_forward_hooks E (CollectLocalShardHook :: rest) (VShardedTensor st) =
  hook_func E CollectLocalShardHook (VShardedTensor st).
Proof.
  simpl. unfold collect_hook_func.
  destruct (_sharding_spec st) as [dim placements|payload].
  - destruct (tensor_size (local_tensor st) dim) as [e|n]; [done|].
    destruct (decide (n = 1%Z)).
    + destruct (squeeze (local_tensor st) dim) as [e'|t]; [done|].
      by rewrite run_forward_hooks_dense.
    + by rewrite run_forward_hooks_dense.
  - by rewrite run_forward_hooks_dense.
Qed.

(** ** The process-group scoping context *)

Lemma set_current_id w : set_current (_CURRENT_PROCESS_GROUP w) w = w.
Proof. by destruct w. Qed.

(** X8. A scope entered with [None] as its group sets no override: the
    re-entrancy check does not see it, so a scope entered inside it
    behaves as if entered outside, and [_get_current_process_group]
    inside it returns the default group. *)
Theorem load_with_process_group_none
    (E : Collaborators) (A : Type) (g : ProcessGroup)
    (inner : option ProcessGroup -> M A) (w : world) :
  _CURRENT_PROCESS_GROUP w = None ->
  load_with_process_group None (fun _ => load_with_process_group (Some g) inner) w =
    load_with_process_group (Some g) inner w
  /\ load_with_process_group None (fun _ => _get_current_process_group E) w =
       (inr (_get_default_group E), w).
Proof.
  destruct w as [ms cur cs]. simpl. intros ->.
  unfold load_with_process_group, _get_current_process_group, set_current. simpl.
  split; [|done].
  by destruct (inner (Some g) (mkWorld ms (Some g) cs)) as [r [ms1 cur1 cs1]].
Qed.

Lemma load_with_process_group_none_witness :
  load_with_process_group None
    (fun _ => load_with_process_group (Some (Group 5))
                (fun _ => _get_current_process_group env_agree)) empty_world =
    (inr (Group 5), empty_world).
Proof.
  destruct (load_with_process_group_none env_agree ProcessGroup (Group 5)
              (fun _ => _get_current_process_group env_agree) empty_world eq_refl)
    as [-> _].
  reflexivity.
Defined.

(** ** The engine and the scoping context do not interact *)

Section Oblivious.

Variable E : Collaborators.

Lemma oblivious_ret {A} (a : A) : oblivious (ret a).
Proof. done. Qed.

Lemma oblivious_raise {A} (e : exn) : oblivious (raise (A := A) e).
Proof. done. Qed.

Lemma oblivious_lift {A} (r : exn + A) : oblivious (lift r).
Proof. done. Qed.

Lemma oblivious_bind {A B} (c : M A) (k : A -> M B) :
  oblivious c -> (forall a, oblivious (k a)) -> oblivious (bind c k).
Proof.
  intros Hc Hk g w. unfold bind. rewrite Hc.
  destruct (c w) as [[e|a] w1]; simpl; [done|]. apply Hk.
Qed.

Lemma oblivious_get_module module : oblivious (get_module module).
Proof. intros g w. unfold get_module. simpl. by destruct (modules w !! module). Qed.

Lemma oblivious_put_module module m : oblivious (put_module module m).
Proof. done. Qed.

Lemma oblivious_shard_tensor t spec src_rank process_group :
  oblivious (_shard_tensor E t spec src_rank process_group).
Proof.
  unfold _shard_tensor. destruct (contiguous t); simpl; [|apply oblivious_raise].
  apply oblivious_bind; [done|]. intros gathered.
  apply oblivious_bind; [apply oblivious_lift|]. intros _.
  apply oblivious_bind; [done|]. intros st. apply oblivious_ret.
Qed.

Lemma oblivious_shard_parameter module name spec src_rank process_group :
  oblivious (shard_parameter E module name spec src_rank process_group).
Proof.
  unfold shard_parameter, py_hasattr, py_getattr, py_delattr, py_setattr.
  apply oblivious_bind.
  { apply oblivious_bind; [apply oblivious_get_module|]. intros m. apply oblivious_ret. }
  intros has. destruct has; simpl; [|apply oblivious_raise].
  apply oblivious_bind.
  { apply oblivious_bind; [apply oblivious_get_module|]. intros m. apply oblivious_lift. }
  intros v.
  destruct v as [|t|st|pt|c|n];
    try (apply oblivious_bind; [apply oblivious_get_module|]; intros m; done).
  destruct (contiguous t); simpl; [|apply oblivious_raise].
  apply oblivious_bind; [apply oblivious_shard_tensor|]. intros st.
  apply oblivious_bind.
  - apply oblivious_bind; [apply oblivious_get_module|]. intros m.
    apply oblivious_bind; [apply oblivious_lift|]. intros m'. apply oblivious_put_module.
  - intros _. apply oblivious_bind; [apply oblivious_get_module|]. intros m.
    apply oblivious_bind; [apply oblivious_lift|]. intros m'. apply oblivious_put_module.
Qed.

Lemma oblivious_register module h : oblivious (py_register_forward_hook module h).
Proof.
  unfold py_register_forward_hook.
  apply oblivious_bind; [apply oblivious_get_module|]. intros m. apply oblivious_put_module.
Qed.

Lemma oblivious_shard_module_params mod_ mod_prefix p src_rank process_group keys memo :
  oblivious (shard_module_params E mod_ mod_prefix p src_rank process_group keys memo).
Proof.
  revert memo. induction keys as [|k rest IH]; intros memo; simpl; [apply oblivious_ret|].
  apply oblivious_bind; [apply oblivious_get_module|]. intros m.
  apply oblivious_bind; [apply oblivious_lift|]. intros v.
  destruct v as [param|]; [|apply IH].
  destruct (decide (param_id param ∈ memo)); [apply IH|].
  apply oblivious_bind; [|intros _; apply IH].
  destruct (plan p !! join_prefix mod_prefix k);
    [apply oblivious_shard_parameter|apply oblivious_ret].
Qed.

Lemma oblivious_shard_module_visit p src_rank process_group mod_prefix mod_ :
  oblivious (shard_module_visit E p src_rank process_group mod_prefix mod_).
Proof.
  unfold shard_module_visit.
  apply oblivious_bind; [apply oblivious_get_module|]. intros m.
  apply oblivious_bind; [apply oblivious_shard_module_params|]. intros _.
  apply oblivious_bind.
  - destruct (output_plan p) as [op|]; [destruct (op !! mod_prefix)|];
      try apply oblivious_ret.
    apply oblivious_bind; [|intros _; apply oblivious_ret].
    apply oblivious_bind; [apply oblivious_register|]. intros _. apply oblivious_ret.
  - intros _. destruct (return_local_tensor p) as [names|];
      [destruct (decide (mod_prefix ∈ names))|]; try apply oblivious_ret.
    apply oblivious_bind; [|intros _; apply oblivious_ret].
    apply oblivious_bind; [apply oblivious_register|]. intros _. apply oblivious_ret.
Qed.

Lemma oblivious_shard_module_loop p src_rank process_group l :
  oblivious (shard_module_loop E p src_rank process_group l).
Proof.
  induction l as [|[mod_prefix mod_] rest IH]; simpl; [apply oblivious_ret|].
  apply oblivious_bind; [apply oblivious_shard_module_visit|]. intros _. apply IH.
Qed.

Lemma oblivious_shard_module module p src_rank process_group :
  oblivious (shard_module E module p src_rank process_group).
Proof. intros g w. unfold shard_module. simpl. apply oblivious_shard_module_loop. Qed.

Lemma oblivious_keeps_override {A} (c : M A) w :
  oblivious c -> _CURRENT_PROCESS_GROUP (c w).2 = _CURRENT_PROCESS_GROUP w.
Proof.
  intros Hc. specialize (Hc (_CURRENT_PROCESS_GROUP w) w).
  rewrite set_current_id in Hc. by rewrite Hc.
Qed.

End Oblivious.

(** X9. [shard_module] neither reads nor writes the override of
    [load_with_process_group]: run inside a scope it does exactly what
    it does outside (with [process_group=None] the collectives go to the
    default group, not to the group of the scope), and it leaves the
    override as it found it. *)
Theorem shard_module_ignores_scope
    (E : Collaborators) (module : nat) (p : ShardingPlan) (src_rank : Z)
    (process_group : option ProcessGroup) (g : ProcessGroup) (w : world) :
  _CURRENT_PROCESS_GROUP w = None ->
  load_with_process_group (Some g)
    (fun _ => shard_module E module p src_rank process_group) w =
    shard_module E module p src_rank process_group w
  /\ _CURRENT_PROCESS_GROUP (shard_module E module p src_rank process_group w).2 = None.
Proof.
  intros Hcur.
  pose proof (oblivious_keeps_override _ w
                (oblivious_shard_module E module p src_rank process_group)) as Hkeep.
  rewrite Hcur in Hkeep. split; [|done].
  unfold load_with_process_group. rewrite Hcur.
  rewrite (oblivious_shard_module E module p src_rank process_group (Some g) w).
  destruct (shard_module E module p src_rank process_group w) as [r w1]. simpl in *.
  f_equal. rewrite <- Hkeep. destruct w1. done.
Qed.

Lemma shard_module_ignores_scope_witness :
  load_with_process_group (Some (Group 9))
    (fun _ => shard_module env_agree 0 (plan_of ["linear.weight"]) 0 None) two_layer_world =
  shard_module env_agree 0 (plan_of ["linear.weight"]) 0 None two_layer_world
  /\ calls (shard_module env_agree 0 (plan_of ["linear.weight"]) 0 None two_layer_world).2 =
       [CallAllGather (Group 0) (0%Z, chunk0); CallShard chunk0 dense_4_8 0 None].
Proof.
  split; [|reflexivity].
  apply (shard_module_ignores_scope env_agree 0 (plan_of ["linear.weight"]) 0 None (Group 9)
           two_layer_world eq_refl).
Defined.

(** ** Plans that name no parameter of the tree *)

Section Quiet.

Variable E : Collaborators.
Variable p : ShardingPlan.
Variable src_rank : Z.
Variable process_group : option ProcessGroup.

Lemma quiet_params mod_ mod_prefix keys memo w m :
  modules w !! mod_ = Some m ->
  unplanned p mod_prefix m ->
  (forall k, k ∈ keys -> exists v, attr_lookup m k = Some (MParam v)) ->
  shard_module_params E mod_ mod_prefix p src_rank process_group keys memo w = (inr tt, w).
Proof.
  intros Hm Hun. revert memo. induction keys as [|k rest IH]; intros memo Hkeys; [done|].
  assert (Hrest : forall k', k' ∈ rest -> exists v, attr_lookup m k' = Some (MParam v)).
  { intros k' Hk'. apply Hkeys, elem_of_cons. by right. }
  destruct (Hkeys k) as [v Hv]; [apply elem_of_cons; by left|].
  simpl. unfold bind at 1, get_module. rewrite Hm.
  unfold bind at 1, lift, parameters_getitem. rewrite Hv.
  destruct v as [param|]; [|by apply IH].
  destruct (decide (param_id param ∈ memo)); [by apply IH|].
  rewrite (Hun _ _ Hv). unfold bind at 1, ret. by apply IH.
Qed.

(** The registration of the hooks at the end of a visit. *)
Lemma install_hooks_run mod_ mod_prefix w m :
  modules w !! mod_ = Some m ->
  exists w',
    ((match output_plan p with
      | Some op =>
          match op !! mod_prefix with
          | Some spec => _reshard_output mod_ spec;; ret tt
          | None => ret tt
          end
      | None => ret tt
      end);;
     (match return_local_tensor p with
      | Some names =>
          if decide (mod_prefix ∈ names) then _collect_local_shard mod_;; ret tt else ret tt
      | None => ret tt
      end)) w = (inr tt, w')
    /\ calls w' = calls w
    /\ _CURRENT_PROCESS_GROUP w' = _CURRENT_PROCESS_GROUP w
    /\ (forall id, id <> mod_ -> modules w' !! id = modules w !! id)
    /\ modules w' !! mod_ =
         Some (mkModule (module_type m) (attrs m)
                 (_forward_hooks m ++ installed_hooks p mod_prefix)).
Proof.
  intros Hm.
  assert (Hreg : forall h w0 m0, modules w0 !! mod_ = Some m0 ->
    exists w1,
      py_register_forward_hook mod_ h w0 = (inr tt, w1)
      /\ calls w1 = calls w0
      /\ _CURRENT_PROCESS_GROUP w1 = _CURRENT_PROCESS_GROUP w0
      /\ (forall id, id <> mod_ -> modules w1 !! id = modules w0 !! id)
      /\ modules w1 !! mod_ =
           Some (mkModule (module_type m0) (attrs m0) (_forward_hooks m0 ++ [h]))).
  { intros h w0 m0 Hm0. eexists.
    unfold py_register_forward_hook, bind, get_module, put_module. rewrite Hm0.
    split; [reflexivity|]. simpl. split_and!; try done.
    - intros id Hid. by rewrite lookup_insert_ne.
    - by rewrite lookup_insert_eq. }
  assert (Hsame : modules w !! mod_ =
                  Some (mkModule (module_type m) (attrs m) (_forward_hooks m ++ []))).
  { rewrite app_nil_r, Hm. by destruct m. }
  set (h1 := match output_plan p with
             | Some op =>
                 match op !! mod_prefix with
                 | Some spec => [ReshardHook spec]
                 | None => []
                 end
             | None => []
             end).
  set (h2 := match return_local_tensor p with
             | Some names =>
                 if decide (mod_prefix ∈ names) then [CollectLocalShardHook] else []
             | None => []
             end).
  assert (Hstep1 : exists w1,
    (match output_plan p with
     | Some op =>
         match op !! mod_prefix with
         | Some spec => _reshard_output mod_ spec;; ret tt
         | None => ret tt
         end
     | None => ret tt
     end) w = (inr tt, w1)
    /\ calls w1 = calls w
    /\ _CURRENT_PROCESS_GROUP w1 = _CURRENT_PROCESS_GROUP w
    /\ (forall id, id <> mod_ -> modules w1 !! id = modules w !! id)
    /\ modules w1 !! mod_ =
         Some (mkModule (module_type m) (attrs m) (_forward_hooks m ++ h1))).
  { subst h1. destruct (output_plan p) as [op|]; [destruct (op !! mod_prefix) as [spec|]|].
    - destruct (Hreg (ReshardHook spec) w m Hm) as (w1 & Hr & H1 & H2 & H3 & H4).
      exists w1. unfold _reshard_output, bind, ret. rewrite Hr. done.
    - exists w. done.
    - exists w. done. }
  destruct Hstep1 as (w1 & Hrun1 & Hc1 & Hcur1 & Hids1 & Hm1).
  assert (Hstep2 : exists w2,
    (match return_local_tensor p with
     | Some names =>
         if decide (mod_prefix ∈ names) then _collect_local_shard mod_;; ret tt else ret tt
     | None => ret tt
     end) w1 = (inr tt, w2)
    /\ calls w2 = calls w1
    /\ _CURRENT_PROCESS_GROUP w2 = _CURRENT_PROCESS_GROUP w1
    /\ (forall id, id <> mod_ -> modules w2 !! id = modules w1 !! id)
    /\ modules w2 !! mod_ =
         Some (mkModule (module_type m) (attrs m) (_forward_hooks m ++ h1 ++ h2))).
  { subst h2. destruct (return_local_tensor p) as [names|];
      [destruct (decide (mod_prefix ∈ names))|].
    - destruct (Hreg CollectLocalShardHook w1 _ Hm1) as (w2 & Hr & H1 & H2 & H3 & H4).
      exists w2. unfold _collect_local_shard, bind, ret. rewrite Hr.
      split_and!; try done. rewrite H4. simpl. by rewrite <- app_assoc.
    - exists w1. rewrite app_nil_r. done.
    - exists w1. rewrite app_nil_r. done. }
  destruct Hstep2 as (w2 & Hrun2 & Hc2 & Hcur2 & Hids2 & Hm2).
  exists w2. unfold bind at 1. rewrite Hrun1. split; [exact Hrun2|].
  split; [congruence|]. split; [congruence|]. split.
  - intros id Hid. by rewrite Hids2, Hids1.
  - exact Hm2.
Qed.

Lemma quiet_visit mod_ mod_prefix w m :
  modules w !! mod_ = Some m ->
  NoDup (attrs m).*1 ->
  unplanned p mod_prefix m ->
  exists w',
    shard_module_visit E p src_rank process_group mod_prefix mod_ w = (inr tt, w')
    /\ calls w' = calls w
    /\ (forall id, id <> mod_ -> modules w' !! id = modules w !! id)
    /\ modules w' !! mod_ =
         Some (mkModule (module_type m) (attrs m)
                 (_forward_hooks m ++ installed_hooks p mod_prefix)).
Proof.
  intros Hm Hnd Hun.
  destruct (install_hooks_run mod_ mod_prefix w m Hm) as (w' & Hrun & Hc & _ & Hids & Hm').
  exists w'. split; [|done].
  unfold shard_module_visit. unfold bind at 1, get_module. rewrite Hm.
  unfold bind at 1. rewrite (quiet_params _ _ _ _ _ m); try done.
  intros k Hk. by apply parameters_lookup.
Qed.

Lemma quiet_loop l w :
  NoDup l.*2 ->
  (forall mod_prefix mod_, (mod_prefix, mod_) ∈ l ->
     exists m, modules w !! mod_ = Some m /\ NoDup (attrs m).*1
               /\ unplanned p mod_prefix m) ->
  exists w',
    shard_module_loop E p src_rank process_group l w = (inr tt, w')
    /\ calls w' = calls w
    /\ (forall id, id ∉ l.*2 -> modules w' !! id = modules w !! id)
    /\ (forall mod_prefix mod_, (mod_prefix, mod_) ∈ l ->
         exists m, modules w !! mod_ = Some m
           /\ modules w' !! mod_ =
                Some (mkModule (module_type m) (attrs m)
                        (_forward_hooks m ++ installed_hooks p mod_prefix))).
Proof.
  revert w. induction l as [|[prefix0 id0] rest IH]; intros w Hnd Hq.
  - exists w. split_and!; try done. intros ? ? H. by apply elem_of_nil in H.
  - apply NoDup_cons in Hnd as [Hid0 Hnd].
    destruct (Hq prefix0 id0) as (m0 & Hm0 & Hnd0 & Hun0); [apply elem_of_cons; by left|].
    destruct (quiet_visit id0 prefix0 w m0 Hm0 Hnd0 Hun0) as (w1 & Hv & Hc1 & Hids1 & Hm1).
    assert (Hne : forall mod_prefix mod_, (mod_prefix, mod_) ∈ rest -> mod_ <> id0).
    { intros mod_prefix mod_ Hel ->. apply Hid0, list_elem_of_fmap.
      by exists (mod_prefix, id0). }
    destruct (IH w1 Hnd) as (w' & Hl & Hc' & Hout & Hin).
    { intros mod_prefix mod_ Hel. rewrite (Hids1 _ (Hne _ _ Hel)).
      apply Hq, elem_of_cons. by right. }
    exists w'. simpl. unfold bind at 1. rewrite Hv. split; [done|].
    split; [congruence|]. split.
    + intros id [Hid Hrest]%not_elem_of_cons. by rewrite Hout, Hids1.
    + intros mod_prefix mod_ [[= -> ->]|Hel]%elem_of_cons.
      * exists m0. split; [done|]. by rewrite Hout.
      * destruct (Hin _ _ Hel) as (m & Hm & Hm'). exists m. split; [|done].
        by rewrite <- (Hids1 _ (Hne _ _ Hel)).
Qed.

End Quiet.

Lemma shard_module_unplanned_quiet_aux
    (E : Collaborators) (p : ShardingPlan) (src_rank : Z)
    (process_group : option ProcessGroup) (root : nat) (w : world) :
  (forall mod_prefix mod_, (mod_prefix, mod_) ∈ named_modules (modules w) root ->
     exists m, modules w !! mod_ = Some m /\ NoDup (attrs m).*1
               /\ unplanned p mod_prefix m) ->
  exists w',
    shard_module E root p src_rank process_group w = (inr tt, w')
    /\ calls w' = calls w
    /\ (forall id, attrs <$> modules w' !! id = attrs <$> modules w !! id)
    /\ (forall mod_prefix mod_, (mod_prefix, mod_) ∈ named_modules (modules w) root ->
         exists m m', modules w !! mod_ = Some m /\ modules w' !! mod_ = Some m'
           /\ _forward_hooks m' = (_forward_hooks m ++ installed_hooks p mod_prefix)%list).
Proof.
  intros Hq.
  destruct (quiet_loop E p src_rank process_group _ w (named_modules_NoDup _ root) Hq)
    as (w' & Hrun & Hc & Hout & Hin).
  exists w'. split; [done|]. split; [done|]. split.
  - intros id. destruct (decide (id ∈ (named_modules (modules w) root).*2)) as [Hid|Hid].
    + apply list_elem_of_fmap in Hid as ([mod_prefix mod_] & -> & Hel).
      destruct (Hin _ _ Hel) as (m & Hm & Hm'). simpl. by rewrite Hm, Hm'.
    + by rewrite Hout.
  - intros mod_prefix mod_ Hel. destruct (Hin _ _ Hel) as (m & Hm & Hm').
    by eexists m, _.
Qed.

(** X10. When no parameter of the tree has a qualified name that is a
    key of the plan (an empty plan, or a plan whose names match
    nothing), [shard_module] returns without taking part in any
    collective and without touching any attribute: all it does is
    register the hooks the plan asks for on the modules it enumerates. *)
Theorem shard_module_unplanned_is_quiet
    (E : Collaborators) (p : ShardingPlan) (src_rank : Z)
    (process_group : option ProcessGroup) (root : nat) (w : world) :
  (forall mod_prefix mod_, (mod_prefix, mod_) ∈ named_modules (modules w) root ->
     exists m, modules w !! mod_ = Some m /\ NoDup (attrs m).*1
               /\ unplanned p mod_prefix m) ->
  exists w',
    shard_module E root p src_rank process_group w = (inr tt, w')
    /\ calls w' = calls w
    /\ (forall id, attrs <$> modules w' !! id = attrs <$> modules w !! id)
    /\ (forall mod_prefix mod_, (mod_prefix, mod_) ∈ named_modules (modules w) root ->
         exists m m', modules w !! mod_ = Some m /\ modules w' !! mod_ = Some m'
           /\ _forward_hooks m' = (_forward_hooks m ++ installed_hooks p mod_prefix)%list).
Proof. apply shard_module_unplanned_quiet_aux. Qed.

Lemma shard_module_unplanned_is_quiet_witness :
  exists w',
    shard_module env_other_rank 0 (mkShardingPlan ∅ (Some {[ "out" := chunk1 ]}) None) 0 None
      two_layer_world = (inr tt, w')
    /\ calls w' = []
    /\ attrs <$> modules w' !! 1 = Some (attrs linear_layer).
Proof.
  destruct (shard_module_unplanned_is_quiet env_other_rank
              (mkShardingPlan ∅ (Some {[ "out" := chunk1 ]}) None) 0 None 0 two_layer_world)
    as (w' & Hrun & Hc & Hattrs & _).
  - intros mod_prefix mod_ Hel.
    assert (Hnd : forall l : list (string * member),
               bool_decide (NoDup l.*1) = true -> NoDup l.*1).
    { intros l H. by apply bool_decide_eq_true in H. }
    apply elem_of_cons in Hel as [Heq|Hel]; [|apply elem_of_cons in Hel as [Heq|Hel];
      [|apply elem_of_cons in Hel as [Heq|Hel]; [|by apply elem_of_nil in Hel]]];
      injection Heq as -> ->; eexists; (split; [reflexivity|]);
      (split; [apply Hnd; reflexivity|]); intros k param _; reflexivity.
  - exists w'. split; [exact Hrun|]. split; [exact Hc|]. exact (Hattrs 1).
Defined.

(** ** Applying a plan a second time *)

Section Reapply.

Variable E : Collaborators.
Variable p : ShardingPlan.
Variable src_rank : Z.
Variable process_group : option ProcessGroup.

(** After a visit, no parameter left in the module is named by the
    plan. *)
Lemma visited_unplanned mod_prefix m m' :
  visited E p src_rank process_group mod_prefix m m' ->
  NoDup (attrs m).*1 ->
  NoDup (held_ids m (_parameters m).*1) ->
  unplanned p mod_prefix m'.
Proof.
  intros (_ & _ & Hfr & Hpar) Hnd Hids k param Hk'.
  destruct (decide (k ∈ (_parameters m).*1)) as [Hkey|Hkey].
  - apply list_elem_of_lookup_1 in Hkey as [i Hi].
    destruct (Hpar Hnd i k Hi) as (v & Hv & Hov).
    destruct v as [q|]; [|congruence].
    destruct Hov as [_ Hfresh].
    assert (Hns : ~ seen m ∅ (take i (_parameters m).*1) q).
    { intros [Hmemo|Hheld]; [set_solver|].
      by apply (held_ids_fresh _ _ _ _ _ Hids Hi Hv). }
    specialize (Hfresh Hns).
    destruct (plan p !! join_prefix mod_prefix k) as [spec|]; [|done].
    destruct Hfresh as (st & _ & Hst). congruence.
  - rewrite (Hfr k Hkey) in Hk'. exfalso. apply Hkey.
    by eapply parameters_elem_of.
Qed.

End Reapply.

(** X11. Applying the same plan a second time, after a run that returned,
    shards nothing more: on a tree in which no module holds a parameter
    object under two keys, the second run returns, takes part in no
    collective and changes no attribute (the parameters the plan names
    are no longer parameters).  It does register the plan's hooks once
    more on every module it enumerates. *)
Theorem shard_module_twice
    (E : Collaborators) (p : ShardingPlan) (src_rank : Z)
    (process_group : option ProcessGroup) (root : nat) (w w' : world) :
  heap_wf (modules w) ->
  (forall mod_prefix mod_ m, (mod_prefix, mod_) ∈ named_modules (modules w) root ->
     modules w !! mod_ = Some m -> NoDup (held_ids m (_parameters m).*1)) ->
  shard_module E root p src_rank process_group w = (inr tt, w') ->
  exists w'',
    shard_module E root p src_rank process_group w' = (inr tt, w'')
    /\ calls w'' = calls w'
    /\ (forall id, attrs <$> modules w'' !! id = attrs <$> modules w' !! id)
    /\ (forall mod_prefix mod_, (mod_prefix, mod_) ∈ named_modules (modules w) root ->
         exists m' m'', modules w' !! mod_ = Some m' /\ modules w'' !! mod_ = Some m''
           /\ _forward_hooks m'' =
                (_forward_hooks m' ++ installed_hooks p mod_prefix)%list).
Proof.
  intros Hwf Hids Hrun.
  pose proof Hrun as Hloop. unfold shard_module in Hloop.
  apply (shard_module_loop_enumeration _ _ _ _ _ root) in Hloop as [Hwf' Henum]; [|done].
  apply shard_module_visited in Hrun as [_ Hvis].
  destruct (shard_module_unplanned_quiet_aux E p src_rank process_group root w') as
    (w'' & Hrun2 & Hc & Hattrs & Hhooks).
  - rewrite Henum. intros mod_prefix mod_ Hel.
    destruct (Hvis _ _ Hel) as (m & m' & Hm & Hm' & Hv).
    exists m'. split; [done|]. split; [by eapply Hwf'|].
    eapply visited_unplanned; [exact Hv|by eapply Hwf|by eapply Hids].
  - exists w''. split; [done|]. split; [done|]. split; [done|].
    intros mod_prefix mod_ Hel. apply Hhooks. by rewrite Henum.
Qed.

Lemma two_layer_world_wf : heap_wf (modules two_layer_world).
Proof.
  intros id m. simpl.
  intros [[<- <-]|[_ [[<- <-]|[_ [<- <-]%lookup_singleton_Some]]%lookup_insert_Some]]
    %lookup_insert_Some; apply (bool_decide_unpack _); vm_compute; exact I.
Qed.

Lemma shard_module_twice_witness :
  exists w' w'' m'',
    shard_module env_agree 0 plan_with_hooks 0 None two_layer_world = (inr tt, w')
    /\ shard_module env_agree 0 plan_with_hooks 0 None w' = (inr tt, w'')
    /\ calls w'' = calls w'
    /\ modules w'' !! 1 = Some m''
    /\ _forward_hooks m'' =
         [ReshardHook chunk1; CollectLocalShardHook; ReshardHook chunk1; CollectLocalShardHook].
Proof.
  assert (Hids : forall mod_prefix mod_ m,
    (mod_prefix, mod_) ∈ named_modules (modules two_layer_world) 0 ->
    modules two_layer_world !! mod_ = Some m -> NoDup (held_ids m (_parameters m).*1)).
  { intros mod_prefix mod_ m Hel.
    apply elem_of_cons in Hel as [Heq|Hel]; [|apply elem_of_cons in Hel as [Heq|Hel];
      [|apply elem_of_cons in Hel as [Heq|Hel]; [|by apply elem_of_nil in Hel]]];
      injection Heq as -> ->; intros Hm; injection Hm as <-;
      apply (bool_decide_unpack _); vm_compute; exact I. }
  destruct (shard_module_twice env_agree plan_with_hooks 0 None 0 two_layer_world _
              two_layer_world_wf Hids eq_refl) as (w'' & Hrun2 & Hc & _ & Hhooks).
  assert (Hin : ("linear", 1) ∈ named_modules (modules two_layer_world) 0).
  { apply elem_of_cons. right. apply elem_of_cons. by left. }
  destruct (Hhooks "linear" 1 Hin) as (m' & m'' & Hm' & Hm'' & Hh).
  eexists _, w'', m''. split; [reflexivity|]. split; [exact Hrun2|].
  split; [exact Hc|]. split; [exact Hm''|].
  rewrite Hh. injection Hm' as <-. reflexivity.
Defined.

(** ** Runs that raise *)

Section FailStop.

Variable E : Collaborators.
Variable p : ShardingPlan.
Variable src_rank : Z.
Variable process_group : option ProcessGroup.

Lemma touches_only_refl mod_ w : touches_only mod_ w w.
Proof. split; [done|]. intros m Hm. by exists m. Qed.

Lemma touches_only_trans mod_ w1 w2 w3 :
  touches_only mod_ w1 w2 -> touches_only mod_ w2 w3 -> touches_only mod_ w1 w3.
Proof.
  intros [Hids1 Hm1] [Hids2 Hm2]. split.
  - intros id Hid. by rewrite Hids2, Hids1.
  - intros m Hm. destruct (Hm1 m Hm) as (m' & Hm' & Hty & Hhk).
    destruct (Hm2 m' Hm') as (m'' & Hm'' & Hty' & Hhk').
    exists m''. split; [done|]. split; congruence.
Qed.

Lemma shard_parameter_touches mod_ name spec w r w' :
  shard_parameter E mod_ name spec src_rank process_group w = (r, w') ->
  touches_only mod_ w w'.
Proof.
  rewrite shard_parameter_unfold.
  destruct (modules w !! mod_) as [m|] eqn:Hm;
    [|intros [= _ <-]; apply touches_only_refl].
  destruct (getattr m name) as [e'|v]; [intros [= _ <-]; apply touches_only_refl|].
  destruct v as [|t|st|pt|c|n]; try (intros [= _ <-]; apply touches_only_refl).
  destruct (contiguous t); [|intros [= _ <-]; apply touches_only_refl].
  destruct (_shard_tensor E t spec src_rank process_group w) as [[e'|st] w1] eqn:Hst.
  - intros [= _ <-]. apply shard_tensor_frame in Hst as [Hms _].
    split; intros; rewrite Hms; eauto.
  - intros [= _ <-]. apply shard_tensor_frame in Hst as [Hms _].
    split; simpl; rewrite Hms.
    + intros id Hid. by rewrite lookup_insert_ne.
    + intros m0 Hm0. rewrite Hm in Hm0. injection Hm0 as <-.
      exists (replaced m name st). by rewrite lookup_insert_eq.
Qed.

Lemma get_module_inv mod_ w r w' :
  get_module mod_ w = (r, w') ->
  w' = w /\ (forall m, r = inr m -> modules w !! mod_ = Some m).
Proof.
  unfold get_module. destruct (modules w !! mod_); intros [= <- <-]; split; try done.
  by intros ? [= ->].
Qed.

Lemma shard_module_params_touches mod_ mod_prefix keys memo w r w' :
  shard_module_params E mod_ mod_prefix p src_rank process_group keys memo w = (r, w') ->
  touches_only mod_ w w'.
Proof.
  revert memo w. induction keys as [|k rest IH]; intros memo w; simpl.
  - intros [= _ <-]. apply touches_only_refl.
  - intros [(e & Hg & _)|(m & w1 & Hg & Hrun)]%bind_inv.
    { apply get_module_inv in Hg as [-> _]. apply touches_only_refl. }
    apply get_module_inv in Hg as [-> _].
    apply bind_inv in Hrun as [(e & Hl & _)|(v & w1 & Hl & Hrun)].
    { injection Hl as _ <-. apply touches_only_refl. }
    injection Hl as _ <-. destruct v as [param|]; [|by eapply IH].
    destruct (decide (param_id param ∈ memo)); [by eapply IH|].
    assert (Hstep : forall r1 w1,
      (match plan p !! join_prefix mod_prefix k with
       | Some spec => shard_parameter E mod_ k spec src_rank process_group
       | None => ret tt
       end) w = (r1, w1) -> touches_only mod_ w w1).
    { intros r1 w1. destruct (plan p !! join_prefix mod_prefix k).
      - apply shard_parameter_touches.
      - intros [= _ <-]. apply touches_only_refl. }
    apply bind_inv in Hrun as [(e & Hs & _)|([] & w1 & Hs & Hrun)].
    + by eapply Hstep.
    + eapply touches_only_trans; [by eapply Hstep|by eapply IH].
Qed.

(** A visit that raises has registered no hook. *)
Lemma shard_module_visit_raises mod_prefix mod_ w e w' :
  shard_module_visit E p src_rank process_group mod_prefix mod_ w = (inl e, w') ->
  touches_only mod_ w w'.
Proof.
  unfold shard_module_visit.
  intros [(e' & Hg & _)|(m & w1 & Hg & Hrun)]%bind_inv.
  { apply get_module_inv in Hg as [-> _]. apply touches_only_refl. }
  apply get_module_inv in Hg as [-> Hm]. specialize (Hm m eq_refl).
  apply bind_inv in Hrun as [(e' & Hp & _)|([] & w1 & Hp & Hrun)].
  { by eapply shard_module_params_touches. }
  apply shard_module_params_touches in Hp as Ht.
  destruct (proj2 Ht m Hm) as (m1 & Hm1 & _).
  destruct (install_hooks_run p mod_ mod_prefix w1 m1 Hm1) as (w2 & Hok & _).
  rewrite Hok in Hrun. done.
Qed.

Lemma shard_module_loop_raises l w e w' :
  shard_module_loop E p src_rank process_group l w = (inl e, w') ->
  exists l1 mod_prefix mod_ l2 w1,
    l = (l1 ++ (mod_prefix, mod_) :: l2)%list
    /\ shard_module_loop E p src_rank process_group l1 w = (inr tt, w1)
    /\ shard_module_visit E p src_rank process_group mod_prefix mod_ w1 = (inl e, w').
Proof.
  revert w. induction l as [|[prefix0 id0] rest IH]; intros w; simpl; [done|].
  intros [(e' & Hv & [= <-])|([] & w1 & Hv & Hrun)]%bind_inv.
  - exists [], prefix0, id0, rest, w. done.
  - apply IH in Hrun as (l1 & mod_prefix & mod_ & l2 & w2 & -> & Hl1 & Hfail).
    exists ((prefix0, id0) :: l1), mod_prefix, mod_, l2, w2.
    split; [done|]. split; [|done]. simpl. unfold bind. by rewrite Hv.
Qed.

End FailStop.

(** X12. Nothing is rolled back when [shard_module] raises.  The run
    raised while visiting one module of the enumeration: the modules
    enumerated before it have been processed completely (parameters and
    hooks), the module itself has no new hook, and every other module,
    among them all those enumerated after it, is exactly as it was. *)
Theorem shard_module_fail_stop
    (E : Collaborators) (p : ShardingPlan) (src_rank : Z)
    (process_group : option ProcessGroup) (root : nat) (w w' : world) (e : exn) :
  shard_module E root p src_rank process_group w = (inl e, w') ->
  exists l1 mod_prefix mod_ l2,
    named_modules (modules w) root = (l1 ++ (mod_prefix, mod_) :: l2)%list
    /\ (forall prefix' id', (prefix', id') ∈ l1 ->
         exists m m', modules w !! id' = Some m /\ modules w' !! id' = Some m'
           /\ visited E p src_rank process_group prefix' m m')
    /\ (forall id', id' ∉ l1.*2 -> id' <> mod_ -> modules w' !! id' = modules w !! id')
    /\ (forall m, modules w !! mod_ = Some m ->
         exists m', modules w' !! mod_ = Some m'
           /\ _forward_hooks m' = _forward_hooks m).
Proof.
  unfold shard_module. intros Hrun.
  pose proof (named_modules_NoDup (modules w) root) as Hnd.
  apply shard_module_loop_raises in Hrun
    as (l1 & mod_prefix & mod_ & l2 & w1 & Heq & Hl1 & Hfail).
  rewrite Heq in Hnd. rewrite fmap_app in Hnd.
  apply NoDup_app in Hnd as (Hnd1 & Hdisj & Hnd2). simpl in Hdisj.
  apply shard_module_loop_spec in Hl1 as [Hout Hin]; [|done].
  apply shard_module_visit_raises in Hfail as [Hids Hself].
  exists l1, mod_prefix, mod_, l2. split; [done|]. split_and!.
  - intros prefix' id' Hel. destruct (Hin _ _ Hel) as (m & m' & Hm & Hm' & Hv).
    exists m, m'. split; [done|]. split; [|done]. rewrite Hids; [done|].
    intros ->. apply (Hdisj mod_).
    + apply list_elem_of_fmap. by exists (prefix', mod_).
    + apply elem_of_cons. by left.
  - intros id' Hnot Hne. by rewrite Hids, Hout.
  - intros m Hm. rewrite <- Hout in Hm.
    + destruct (Hself m Hm) as (m' & Hm' & _ & Hhk). by exists m'.
    + intros Hel. apply (Hdisj mod_ Hel). apply elem_of_cons. by left.
Qed.

Lemma shard_module_fail_stop_witness :
  exists e w' m1 m2,
    shard_module env_agree 0 plan_failing_second 0 None two_layer_world = (inl e, w')
    /\ classify e = InconsistentConfiguration
    /\ modules w' !! 1 = Some m1
    /\ attr_lookup m1 "weight" =
         Some (MPlain (VShardedTensor (mkShardedTensor chunk0 dense_4_8)))
    /\ _forward_hooks m1 = [CollectLocalShardHook]
    /\ modules w' !! 2 = Some m2
    /\ _forward_hooks m2 = _forward_hooks out_layer.
Proof.
  eexists _, _, _, _. split; [reflexivity|]. split; [reflexivity|].
  split; [reflexivity|]. split; [reflexivity|]. split; [reflexivity|].
  split; [reflexivity|].
  destruct (shard_module_fail_stop env_agree plan_failing_second 0 None 0 two_layer_world
              _ _ eq_refl) as (l1 & mod_prefix & mod_ & l2 & Heq & _ & _ & _).
  reflexivity.
Defined.

(** ** The collectives of a run *)

Section Discipline.

Variable E : Collaborators.
Variable p : ShardingPlan.
Variable src_rank : Z.
Variable process_group : option ProcessGroup.

Lemma disciplined_same w w' ok :
  calls w' = calls w -> disciplined E p src_rank process_group w w' ok.
Proof.
  intros Hc. exists [], []. simpl. rewrite app_nil_r. split; [done|].
  split; [constructor|by left].
Qed.

Lemma disciplined_trans w1 w2 w3 ok :
  disciplined E p src_rank process_group w1 w2 true ->
  disciplined E p src_rank process_group w2 w3 ok ->
  disciplined E p src_rank process_group w1 w3 ok.
Proof.
  intros (l1 & tail1 & Hc1 & Hl1 & Ht1) (l2 & tail2 & Hc2 & Hl2 & Ht2).
  destruct Ht1 as [->|[? _]]; [|done]. rewrite app_nil_r in Hc1.
  exists (l1 ++ l2)%list, tail2. split_and!.
  - rewrite Hc2, Hc1. unfold shard_calls. rewrite flat_map_app.
    by rewrite <- !app_assoc.
  - by apply Forall_app.
  - done.
Qed.

Lemma shard_parameter_disciplined mod_ k name spec w r w' :
  plan p !! name = Some spec ->
  shard_parameter E mod_ k spec src_rank process_group w = (r, w') ->
  disciplined E p src_rank process_group w w' (returned r).
Proof.
  intros Hplan. rewrite shard_parameter_unfold.
  destruct (modules w !! mod_) as [m|] eqn:Hm;
    [|intros [= _ <-]; by apply disciplined_same].
  destruct (getattr m k) as [e'|v]; [intros [= _ <-]; by apply disciplined_same|].
  destruct v as [|t|st|pt|c|n]; try (intros [= _ <-]; by apply disciplined_same).
  destruct (contiguous t) eqn:Hc; [|intros [= _ <-]; by apply disciplined_same].
  rewrite (shard_tensor_run E _ _ _ _ _ Hc).
  destruct (check_gathered _ _ _ _ _) as [e'|[]].
  - intros [= <- <-]. exists [], [CallAllGather (resolve_group E process_group) (src_rank, spec)].
    simpl. split; [done|]. split; [constructor|]. right. split; [done|]. eauto.
  - assert (Hl : Forall (fun st : ShardingSpec * Tensor =>
                           exists name, plan p !! name = Some st.1) [(spec, t)]).
    { constructor; [|constructor]. simpl. eauto. }
    destruct (spec_shard E spec t src_rank process_group) as [e'|st];
      intros [= <- <-]; exists [(spec, t)], []; simpl;
      (split; [by rewrite <- app_assoc|]); (split; [exact Hl|by left]).
Qed.

Lemma shard_module_params_disciplined mod_ mod_prefix keys memo w r w' :
  shard_module_params E mod_ mod_prefix p src_rank process_group keys memo w = (r, w') ->
  disciplined E p src_rank process_group w w' (returned r).
Proof.
  revert memo w. induction keys as [|k rest IH]; intros memo w; simpl.
  - intros [= <- <-]. by apply disciplined_same.
  - intros [(e & Hg & ->)|(m & w1 & Hg & Hrun)]%bind_inv.
    { apply get_module_inv in Hg as [-> _]. by apply disciplined_same. }
    apply get_module_inv in Hg as [-> _].
    apply bind_inv in Hrun as [(e & Hl & ->)|(v & w1 & Hl & Hrun)].
    { injection Hl as _ <-. by apply disciplined_same. }
    injection Hl as _ <-. destruct v as [param|]; [|by eapply IH].
    destruct (decide (param_id param ∈ memo)); [by eapply IH|].
    assert (Hstep : forall r1 w1,
      (match plan p !! join_prefix mod_prefix k with
       | Some spec => shard_parameter E mod_ k spec src_rank process_group
       | None => ret tt
       end) w = (r1, w1) -> disciplined E p src_rank process_group w w1 (returned r1)).
    { intros r1 w1. destruct (plan p !! join_prefix mod_prefix k) eqn:Hplan.
      - by apply (shard_parameter_disciplined _ _ (join_prefix mod_prefix k)).
      - intros [= <- <-]. by apply disciplined_same. }
    apply bind_inv in Hrun as [(e & Hs & ->)|([] & w1 & Hs & Hrun)].
    + by apply Hstep in Hs.
    + apply Hstep in Hs. eapply disciplined_trans; [exact Hs|by eapply IH].
Qed.

Lemma py_register_forward_hook_calls mod_ h w r w' :
  py_register_forward_hook mod_ h w = (r, w') -> calls w' = calls w.
Proof.
  unfold py_register_forward_hook, bind, get_module, put_module.
  destruct (modules w !! mod_); by intros [= _ <-].
Qed.

Lemma shard_module_visit_disciplined mod_prefix mod_ w r w' :
  shard_module_visit E p src_rank process_group mod_prefix mod_ w = (r, w') ->
  disciplined E p src_rank process_group w w' (returned r).
Proof.
  unfold shard_module_visit.
  intros [(e & Hg & ->)|(m & w1 & Hg & Hrun)]%bind_inv.
  { apply get_module_inv in Hg as [-> _]. by apply disciplined_same. }
  apply get_module_inv in Hg as [-> _].
  apply bind_inv in Hrun as [(e & Hp & ->)|([] & w1 & Hp & Hrun)].
  { by apply shard_module_params_disciplined in Hp. }
  apply shard_module_params_disciplined in Hp.
  eapply disciplined_trans; [exact Hp|]. apply disciplined_same.
  assert (Hreg : forall (c : M nat) w0 r0 w0',
    (forall r1 w1', c w0 = (r1, w1') -> calls w1' = calls w0) ->
    (c;; ret tt) w0 = (r0, w0') -> calls w0' = calls w0).
  { intros c w0 r0 w0' Hc [(e & Hs & _)|(a & w2 & Hs & Hr)]%bind_inv.
    - by eapply Hc.
    - injection Hr as _ <-. by eapply Hc. }
  assert (Hhook : forall h w0 r0 w0',
    (py_register_forward_hook mod_ h;; ret mod_) w0 = (r0, w0') -> calls w0' = calls w0).
  { intros h w0 r0 w0' [(e & Hs & _)|(a & w2 & Hs & Hr)]%bind_inv.
    - by eapply py_register_forward_hook_calls.
    - injection Hr as _ <-. by eapply py_register_forward_hook_calls. }
  assert (Hstep1 : forall r1 w2,
    (match output_plan p with
     | Some op =>
         match op !! mod_prefix with
         | Some spec => _reshard_output mod_ spec;; ret tt
         | None => ret tt
         end
     | None => ret tt
     end) w1 = (r1, w2) -> calls w2 = calls w1).
  { intros r1 w2. destruct (output_plan p) as [op|]; [destruct (op !! mod_prefix)|];
      try (by intros [= _ <-]).
    apply Hreg. intros r2 w3. apply Hhook. }
  apply bind_inv in Hrun as [(e & Hs & _)|([] & w2 & Hs & Hrun)].
  - by eapply Hstep1.
  - apply Hstep1 in Hs. rewrite <- Hs.
    destruct (return_local_tensor p) as [names|];
      [destruct (decide (mod_prefix ∈ names))|]; try (by injection Hrun as _ <-).
    eapply Hreg; [|exact Hrun]. intros r2 w3. apply Hhook.
Qed.

Lemma shard_module_loop_disciplined l w r w' :
  shard_module_loop E p src_rank process_group l w = (r, w') ->
  disciplined E p src_rank process_group w w' (returned r).
Proof.
  revert w. induction l as [|[prefix0 id0] rest IH]; intros w; simpl.
  - intros [= <- <-]. by apply disciplined_same.
  - intros [(e & Hv & ->)|([] & w1 & Hv & Hrun)]%bind_inv.
    + by apply shard_module_visit_disciplined in Hv.
    + apply shard_module_visit_disciplined in Hv.
      eapply disciplined_trans; [exact Hv|by eapply IH].
Qed.

End Discipline.

(** X13. In every run of [shard_module], returning or raising, the
    calls to the collaborators are a sequence of all-gathers each
    followed at once by the call of [shard] on the specification that
    was gathered; all of them use the source rank and the process group
    given to [shard_module] and a specification that is a value of the
    plan.  An all-gather that is not followed by its [shard] can only be
    the last call of a run that raised. *)
Theorem shard_module_calls_are_disciplined
    (E : Collaborators) (p : ShardingPlan) (src_rank : Z)
    (process_group : option ProcessGroup) (root : nat) (w w' : world)
    (r : exn + unit) :
  shard_module E root p src_rank process_group w = (r, w') ->
  disciplined E p src_rank process_group w w' (returned r).
Proof. unfold shard_module. apply shard_module_loop_disciplined. Qed.

Lemma shard_module_calls_are_disciplined_witness :
  exists e w',
    shard_module env_agree 0 plan_failing_second 0 None two_layer_world = (inl e, w')
    /\ calls w' =
         [CallAllGather (Group 0) (0%Z, chunk0); CallShard chunk0 dense_4_8 0 None;
          CallAllGather (Group 0) (0%Z, OpaqueShardingSpec [])]
    /\ disciplined env_agree plan_failing_second 0 None two_layer_world w' false.
Proof.
  eexists _, _. split; [reflexivity|]. split; [reflexivity|].
  apply (shard_module_calls_are_disciplined env_agree plan_failing_second 0 None 0
           two_layer_world _
           (inl (ValueError (MsgShardingSpecMismatch (OpaqueShardingSpec []) 0 chunk0 1)))).
  reflexivity.
Defined.

(** X14. A run of [shard_module] that returns has registered on every
    module it enumerates exactly the hooks the plan asks for under the
    module's path, after the hooks the module had: the reshard hook when
    the path is a key of [output_plan], then the collapse hook when the
    path is listed in [return_local_tensor], and none otherwise; the
    hooks of modules it does not enumerate are untouched. *)
Theorem shard_module_installs_planned_hooks
    (E : Collaborators) (p : ShardingPlan) (src_rank : Z)
    (process_group : option ProcessGroup) (root : nat) (w w' : world) :
  shard_module E root p src_rank process_group w = (inr tt, w') ->
  (forall mod_prefix mod_, (mod_prefix, mod_) ∈ named_modules (modules w) root ->
     exists m m', modules w !! mod_ = Some m /\ modules w' !! mod_ = Some m'
       /\ _forward_hooks m' = (_forward_hooks m ++ installed_hooks p mod_prefix)%list)
  /\ (forall id, id ∉ (named_modules (modules w) root).*2 ->
        modules w' !! id = modules w !! id).
Proof.
  intros Hrun. apply shard_module_visited in Hrun as [Hout Hvis]. split; [|done].
  intros mod_prefix mod_ Hel.
  destruct (Hvis _ _ Hel) as (m & m' & Hm & Hm' & _ & Hhk & _). by exists m, m'.
Qed.

Lemma shard_module_installs_planned_hooks_witness :
  exists w' m0 m1 m2,
    shard_module env_agree 0 plan_with_hooks 0 None two_layer_world = (inr tt, w')
    /\ modules w' !! 0 = Some m0 /\ modules w' !! 1 = Some m1 /\ modules w' !! 2 = Some m2
    /\ _forward_hooks m0 = []
    /\ _forward_hooks m1 = [ReshardHook chunk1; CollectLocalShardHook]
    /\ _forward_hooks m2 = [].
Proof.
  destruct (shard_module_installs_planned_hooks env_agree plan_with_hooks 0 None 0
              two_layer_world _ eq_refl) as [Hin _].
  assert (H0 : ("", 0) ∈ named_modules (modules two_layer_world) 0).
  { apply elem_of_cons. by left. }
  assert (H1 : ("linear", 1) ∈ named_modules (modules two_layer_world) 0).
  { apply elem_of_cons. right. apply elem_of_cons. by left. }
  assert (H2 : ("out", 2) ∈ named_modules (modules two_layer_world) 0).
  { apply elem_of_cons. right. apply elem_of_cons. right. apply elem_of_cons. by left. }
  destruct (Hin _ _ H0) as (a0 & m0 & Ha0 & Hm0 & Hh0).
  destruct (Hin _ _ H1) as (a1 & m1 & Ha1 & Hm1 & Hh1).
  destruct (Hin _ _ H2) as (a2 & m2 & Ha2 & Hm2 & Hh2).
  injection Ha0 as <-. injection Ha1 as <-. injection Ha2 as <-.
  eexists _, m0, m1, m2. split; [reflexivity|].
  split; [exact Hm0|]. split; [exact Hm1|]. split; [exact Hm2|].
  split; [exact Hh0|]. split; [exact Hh1|exact Hh2].
Defined.

(** X15. In a group of one process the agreement check cannot fail: on a
    contiguous tensor [_shard_tensor] takes part in the all-gather,
    calls the specification's [shard] and returns what it returns. *)
Theorem shard_tensor_single_process
    (E : Collaborators) (tensor : Tensor) (spec : ShardingSpec) (src_rank : Z)
    (process_group : option ProcessGroup) (w : world) :
  contiguous tensor = true ->
  get_world_size E (resolve_group E process_group) = 1 ->
  get_rank E (resolve_group E process_group) = 0 ->
  _shard_tensor E tensor spec src_rank process_group w =
    (spec_shard E spec tensor src_rank process_group,
     record_call (CallShard spec tensor src_rank process_group)
       (record_call (CallAllGather (resolve_group E process_group) (src_rank, spec)) w)).
Proof.
  intros Hc Hws Hrank. rewrite (shard_tensor_run E _ _ _ _ _ Hc). cbv zeta.
  rewrite Hws, Hrank. simpl. rewrite !decide_False by (intros H; by apply H).
  done.
Qed.

Lemma shard_tensor_single_process_witness :
  _shard_tensor env_single dense_4_8 chunk0 3 None empty_world =
    (inr (mkShardedTensor chunk0 dense_4_8),
     mkWorld ∅ None [CallAllGather (Group 0) (3%Z, chunk0); CallShard chunk0 dense_4_8 3 None]).
Proof.
  rewrite (shard_tensor_single_process env_single dense_4_8 chunk0 3 None empty_world
             eq_refl eq_refl eq_refl).
  reflexivity.
Defined.
